(** * Inventory reservation protocol of the album store

    A shallow embedding of the inventory service
    ([inventory-service/kafka_consumer.go] and the HTTP handlers of its
    [main.go]) together with the properties of the reservation protocol.

    Storage is PostgreSQL behind [database/sql]; the broker is Kafka behind
    [kafka-go].  Both are modelled by what the code observes of them:
    - the [inventory] table is a finite map from [album_id] (the primary key)
      to a row; every SQL statement of the source is a function on that map;
    - every call that can fail takes its result from an environment record
      ([Faults]), so that each error branch of the source can be reached;
    - [time.Now()] and SQL [NOW()] read the environment's clock;
    - a message handed to a [kafka.Writer] is appended to a log of writes
      together with the writer's answer.

    Quantities are integers; the range of the [INTEGER] column is not
    modelled (a statement that would leave it is one of the statements that
    fail).  A transaction whose [Commit] returns an error has changed
    nothing.  Log lines and tracing spans are left out. *)

From Stdlib Require Import ZArith Ascii String List Bool Lia DecimalString Sorted.
From stdpp Require Import base option gmap strings list.

Local Open Scope string_scope.
Local Open Scope Z_scope.

(** ** Errors *)

(** Go [error] values: a plain message, or a message wrapping a cause
    ([fmt.Errorf("...: %w", err)]). *)
Inductive error : Type :=
| ErrText (text : string)
| ErrWrap (prefix : string) (cause : error).

#[global] Instance error_eq_dec : EqDecision error.
Proof. solve_decision. Defined.

(** [err.Error()]. *)
Fixpoint Error (e : error) : string :=
  match e with
  | ErrText text => text
  | ErrWrap prefix cause => prefix ++ ": " ++ Error cause
  end.

Definition sqlErrNoRows : error := ErrText "sql: no rows in result set".
Definition errNoInventory : error := ErrText "no inventory record found".
Definition errInsufficientInventory : error := ErrText "insufficient inventory".

(** ** Events and messages *)

(** Instants ([time.Time], SQL [TIMESTAMP]) on an integer clock. *)
Definition Time : Type := Z.

(** [OrderMessage]: the payload of the order-created topic. *)
Record OrderMessage : Type := mkOrderMessage {
  om_OrderID : string;
  om_AlbumID : string;
  om_Quantity : Z;
  om_UserID : string;
  om_Timestamp : string
}.

(** [AlbumCreatedEvent]; [InitialQuantity] is a [*int] in the source. *)
Record AlbumCreatedEvent : Type := mkAlbumCreatedEvent {
  ac_AlbumID : string;
  ac_Title : string;
  ac_Artist : string;
  ac_Timestamp : Time;
  ac_InitialQuantity : option Z
}.

Record OrderFailedEvent : Type := mkOrderFailedEvent {
  of_OrderID : string;
  of_Reason : string;
  of_Timestamp : Time
}.

Record OrderSucceededEvent : Type := mkOrderSucceededEvent {
  os_OrderID : string;
  os_Timestamp : Time
}.

(** [kafka.Header]. *)
Record Header : Type := mkHeader {
  h_Key : string;
  h_Value : string
}.

(** A consumed [kafka.Message]: the payload is the raw byte string. *)
Record Message : Type := mkMessage {
  m_Partition : Z;
  m_Offset : Z;
  m_Key : string;
  m_Value : string;
  m_Headers : list Header
}.

(** The value of a produced message is the JSON encoding of one of the two
    outcome structs; it is kept here as the struct itself. *)
Inductive OutcomeEvent : Type :=
| Failed (e : OrderFailedEvent)
| Succeeded (e : OrderSucceededEvent).

(** A produced [kafka.Message]. *)
Record OutMessage : Type := mkOutMessage {
  out_Key : string;
  out_Value : OutcomeEvent;
  out_Headers : list Header
}.

(** ** Storage and broker state *)

(** One row of [inventory]. *)
Record Row : Type := mkRow {
  quantity_available : Z;
  last_updated : Time
}.

(** One call of [writer.WriteMessages]: the topic of the writer, the
    message, and what the writer answered. *)
Record WriteCall : Type := mkWriteCall {
  wc_topic : string;
  wc_msg : OutMessage;
  wc_result : option error
}.

(** The state the service shares: the two tables and the log of writes.
    [processed_orders] is [None] until its table has been created. *)
Record World : Type := mkWorld {
  inventory : gmap string Row;
  processed_orders : option (gmap string Time);
  writes : list WriteCall
}.

Definition set_inventory (inv : gmap string Row) (w : World) : World :=
  mkWorld inv (processed_orders w) (writes w).

Definition add_write (c : WriteCall) (w : World) : World :=
  mkWorld (inventory w) (processed_orders w) (writes w ++ [c]).

(** What one invocation observes of its environment: the answer of each
    fallible call ([None] is success) and the clock. *)
Record Faults : Type := mkFaults {
  f_begin : option error;     (* db.BeginTx *)
  f_exec : option error;      (* ExecContext / Exec *)
  f_rows : option error;      (* result.RowsAffected *)
  f_commit : option error;    (* tx.Commit *)
  f_query : option error;     (* QueryRow(...).Scan, when the query itself fails *)
  f_requery : option error;   (* the second QueryRow of reserveInventory *)
  f_write : option error;     (* writer.WriteMessages *)
  f_offsets : option error;   (* reader.CommitMessages *)
  now : Time
}.

(** The environment in which nothing fails. *)
Definition calm (t : Time) : Faults :=
  mkFaults None None None None None None None None t.

(** ** The SQL statements of the source *)

(** [UPDATE inventory SET quantity_available = quantity_available - $1
     WHERE album_id = $2 AND quantity_available >= $1]:
    the new table and the number of rows affected. *)
Definition update_if_sufficient (q : Z) (album : string)
    (inv : gmap string Row) : gmap string Row * Z :=
  match inv !! album with
  | Some r =>
      if q <=? quantity_available r
      then (<[album := mkRow (quantity_available r - q) (last_updated r)]> inv, 1)
      else (inv, 0)
  | None => (inv, 0)
  end.

(** [INSERT INTO inventory (album_id, quantity_available, last_updated)
     VALUES ($1, $2, NOW()) ON CONFLICT (album_id) DO NOTHING]. *)
Definition insert_on_conflict_do_nothing (album : string) (q : Z) (t : Time)
    (inv : gmap string Row) : gmap string Row :=
  match inv !! album with
  | Some _ => inv
  | None => <[album := mkRow q t]> inv
  end.

(** [INSERT ... ON CONFLICT (album_id) DO UPDATE SET quantity_available = $2,
     last_updated = $3].  [$3] is a Go [time.Time] and [last_updated] a
    [TIMESTAMP] column ([initDB]): the row holds [asTimestamp t], what the
    column keeps of the instant [t] (microseconds, no zone), which need not
    be [t]. *)
Definition insert_on_conflict_do_update (asTimestamp : Time -> Time)
    (album : string) (q : Z) (t : Time) (inv : gmap string Row) : gmap string Row :=
  <[album := mkRow q (asTimestamp t)]> inv.

(** [UPDATE inventory SET quantity_available = quantity_available - $1,
     last_updated = $2 WHERE album_id = $3]. *)
Definition update_unconditional (q : Z) (t : Time) (album : string)
    (inv : gmap string Row) : gmap string Row :=
  match inv !! album with
  | Some r => <[album := mkRow (quantity_available r - q) t]> inv
  | None => inv
  end.

(** [SELECT quantity_available FROM inventory WHERE album_id = $1] followed
    by [Scan]: the environment's error if the query fails, [sql.ErrNoRows]
    if there is no row. *)
Definition select_quantity (fault : option error) (album : string)
    (inv : gmap string Row) : error + Z :=
  match fault with
  | Some e => inl e
  | None =>
      match inv !! album with
      | Some r => inr (quantity_available r)
      | None => inl sqlErrNoRows
      end
  end.

(** [SELECT album_id, quantity_available, last_updated FROM inventory
     WHERE album_id = $1] followed by [Scan]. *)
Definition select_row (fault : option error) (album : string)
    (inv : gmap string Row) : error + Row :=
  match fault with
  | Some e => inl e
  | None =>
      match inv !! album with
      | Some r => inr r
      | None => inl sqlErrNoRows
      end
  end.

(** Stock of an item; an item without a row has none. *)
Definition stock (inv : gmap string Row) (album : string) : Z :=
  match inv !! album with
  | Some r => quantity_available r
  | None => 0
  end.

(** ** Table creation *)

(** [CREATE TABLE IF NOT EXISTS processed_orders (...)]: an existing table
    keeps its rows. *)
Definition initProcessedOrdersTable (w : World) : World :=
  match processed_orders w with
  | Some _ => w
  | None => mkWorld (inventory w) (Some ∅) (writes w)
  end.

(** ** Trace context *)

(** [ExtractTraceInfoFromKafkaMessage], as [tracing.go] of the album
    service has it (the inventory service calls a function of this name):
    the headers are copied into a [propagation.MapCarrier] with
    [carrier.Set], a later header replacing an earlier one with the same
    key; the context handed back by the propagator is kept as that
    carrier. *)
Definition ExtractTraceInfoFromKafkaMessage (headers : list Header)
    : gmap string string :=
  foldl (fun carrier h => <[h_Key h := h_Value h]> carrier) ∅ headers.

(** ** Producing outcome events *)

Definition orderFailedTopic : string := "order-failed".
Definition orderSucceededTopic : string := "order-succeeded".

(** [kafka.Writer], as far as the code configures it. *)
Record Writer : Type := mkWriter { w_Topic : string }.

Definition kafkaFailedEventWriter : Writer := mkWriter orderFailedTopic.
Definition kafkaSucceededEventWriter : Writer := mkWriter orderSucceededTopic.

(** [writer.WriteMessages(ctx, msg)]. *)
Definition WriteMessages (env : Faults) (w : World) (writer : Writer)
    (msg : OutMessage) : World * option error :=
  (add_write (mkWriteCall (w_Topic writer) msg (f_write env)) w, f_write env).

(** [sendOrderEvent]: the event is built from the topic name; the message
    is [kafka.Message{Key: []byte(orderID), Value: event}], so its header
    list is the zero value. *)
Definition sendOrderEvent (env : Faults) (w : World) (orderID reason topic : string)
    (writer : Writer) : World * option error :=
  if String.eqb topic orderFailedTopic then
    WriteMessages env w writer
      (mkOutMessage orderID (Failed (mkOrderFailedEvent orderID reason (now env))) [])
  else if String.eqb topic orderSucceededTopic then
    WriteMessages env w writer
      (mkOutMessage orderID (Succeeded (mkOrderSucceededEvent orderID (now env))) [])
  else (w, Some (ErrText ("unknown topic: " ++ topic))).

Definition sendOrderFailedEvent (env : Faults) (w : World)
    (orderID reason : string) : World * option error :=
  sendOrderEvent env w orderID reason orderFailedTopic kafkaFailedEventWriter.

Definition sendOrderSucceededEvent (env : Faults) (w : World)
    (orderID : string) : World * option error :=
  sendOrderEvent env w orderID EmptyString orderSucceededTopic kafkaSucceededEventWriter.

(** ** The two consumers *)

(** What one turn of a consuming loop did with the message it read. *)
Inductive LoopOutcome : Type :=
| ProcessingFailed (e : error)   (* logged; CommitMessages is not called *)
| CommitFailed (e : error)       (* CommitMessages was called and failed *)
| OffsetCommitted.               (* CommitMessages was called and succeeded *)

(** Whether the loop itself called [reader.CommitMessages] for the
    message.  What the reader commits on its own account in [ReadMessage],
    and which message is read next, is the subject of [Group] below. *)
Definition marked_consumed (o : LoopOutcome) : bool :=
  match o with
  | ProcessingFailed _ => false
  | CommitFailed _ | OffsetCommitted => true
  end.

Section Consumers.

(** [json.Unmarshal] into the two payload structs. *)
Variable unmarshalOrder : string -> error + OrderMessage.
Variable unmarshalAlbum : string -> error + AlbumCreatedEvent.

(** [processAlbumCreatedEvent]. *)
Definition processAlbumCreatedEvent (env : Faults) (w : World) (msg : Message)
    : World * option error :=
  let ctx := ExtractTraceInfoFromKafkaMessage (m_Headers msg) in
  match unmarshalAlbum (m_Value msg) with
  | inl err => (w, Some (ErrWrap "failed to parse AlbumCreatedEvent" err))
  | inr event =>
      let quantityToInsert :=
        match ac_InitialQuantity event with
        | Some q => if 0 <=? q then q else 0
        | None => 0
        end in
      match f_exec env with
      | Some err => (w, Some (ErrWrap "database execution failed" err))
      | None =>
          (set_inventory
             (insert_on_conflict_do_nothing (ac_AlbumID event) quantityToInsert
                (now env) (inventory w)) w,
           None)
      end
  end.

(** [processOrderCreated].  The transaction works on its own copy of the
    table, which [Commit] installs; leaving the function without [Commit]
    runs the deferred [Rollback], which drops the copy. *)
Definition processOrderCreated (env : Faults) (w : World) (msg : Message)
    : World * option error :=
  let ctx := ExtractTraceInfoFromKafkaMessage (m_Headers msg) in
  match unmarshalOrder (m_Value msg) with
  | inl _ => (w, None)
  | inr event =>
      match f_begin env with
      | Some err => (w, Some (ErrWrap "failed to begin transaction" err))
      | None =>
          let tx := inventory w in
          match f_exec env with
          | Some err => (w, Some (ErrWrap "database update error" err))
          | None =>
              let '(tx', rowsAffected) :=
                update_if_sufficient (om_Quantity event) (om_AlbumID event) tx in
              match f_rows env with
              | Some err => (w, Some (ErrWrap "database result error" err))
              | None =>
                  if rowsAffected =? 1 then
                    match f_commit env with
                    | Some err => (w, Some (ErrWrap "transaction commit error" err))
                    | None =>
                        let w1 := set_inventory tx' w in
                        let '(w2, _) := sendOrderSucceededEvent env w1 (om_OrderID event) in
                        (w2, None)
                    end
                  else
                    (* the quantity read here only goes to the log *)
                    let currentQty :=
                      select_quantity (f_query env) (om_AlbumID event) (inventory w) in
                    let '(w2, _) :=
                      sendOrderFailedEvent env w (om_OrderID event) "INSUFFICIENT_INVENTORY" in
                    (w2, None)
              end
          end
      end
  end.

(** One turn of the loop of [startOrderConsumer], after [ReadMessage]
    returned [msg]. *)
Definition orderConsumerTurn (env : Faults) (w : World) (msg : Message)
    : World * LoopOutcome :=
  match processOrderCreated env w msg with
  | (w', Some err) => (w', ProcessingFailed err)
  | (w', None) =>
      match f_offsets env with
      | Some err => (w', CommitFailed err)
      | None => (w', OffsetCommitted)
      end
  end.

(** One turn of the loop of [startAlbumCreatedConsumer]. *)
Definition albumConsumerTurn (env : Faults) (w : World) (msg : Message)
    : World * LoopOutcome :=
  match processAlbumCreatedEvent env w msg with
  | (w', Some err) => (w', ProcessingFailed err)
  | (w', None) =>
      match f_offsets env with
      | Some err => (w', CommitFailed err)
      | None => (w', OffsetCommitted)
      end
  end.

(** The loop of [startOrderConsumer] over the messages it reads, in
    arrival order, each with the environment of its turn. *)
Fixpoint startOrderConsumer (deliveries : list (Faults * Message)) (w : World)
    : World * list LoopOutcome :=
  match deliveries with
  | [] => (w, [])
  | (env, msg) :: rest =>
      let '(w1, o) := orderConsumerTurn env w msg in
      let '(w2, os) := startOrderConsumer rest w1 in
      (w2, o :: os)
  end.

Fixpoint startAlbumCreatedConsumer (deliveries : list (Faults * Message)) (w : World)
    : World * list LoopOutcome :=
  match deliveries with
  | [] => (w, [])
  | (env, msg) :: rest =>
      let '(w1, o) := albumConsumerTurn env w msg in
      let '(w2, os) := startAlbumCreatedConsumer rest w1 in
      (w2, o :: os)
  end.

End Consumers.

(** ** The synchronous reservation *)

(** [reserveInventory], run without any other statement in between. *)
Definition reserveInventory (env : Faults) (w : World) (albumID : string)
    (quantity : Z) : World * option error :=
  match select_quantity (f_query env) albumID (inventory w) with
  | inl err =>
      if decide (err = sqlErrNoRows) then (w, Some errNoInventory)
      else (w, Some err)
  | inr currentQuantity =>
      if currentQuantity <? quantity then (w, Some errInsufficientInventory)
      else
        match f_exec env with
        | Some err => (w, Some err)
        | None =>
            let w1 :=
              set_inventory
                (update_unconditional quantity (now env) albumID (inventory w)) w in
            match select_quantity (f_requery env) albumID (inventory w1) with
            | inl err => (w1, Some err)
            | inr newQuantity => (w1, None)
            end
        end
  end.

(** ** The read endpoint *)

(** [Inventory], the JSON body of the inventory endpoints. *)
Record Inventory : Type := mkInventory {
  inv_AlbumID : string;
  inv_QuantityAvailable : Z;
  inv_LastUpdated : Time
}.

(** What [c.JSON(status, body)] sends. *)
Inductive Body : Type :=
| InventoryBody (i : Inventory)
| ErrorBody (message : string).      (* gin.H{error: message} *)

Record Response : Type := mkResponse {
  r_status : Z;
  r_body : Body
}.

Definition StatusOK : Z := 200.
Definition StatusNotFound : Z := 404.
Definition StatusInternalServerError : Z := 500.

(** [getInventory], the handler of [GET /api/inventory/:albumId]; the route
    is registered outside the group that [requireAdmin] guards. *)
Definition getInventory (env : Faults) (w : World) (albumID : string)
    : World * Response :=
  match select_row (f_query env) albumID (inventory w) with
  | inl err =>
      if decide (err = sqlErrNoRows) then
        (w, mkResponse StatusOK (InventoryBody (mkInventory albumID 0 (now env))))
      else
        (w, mkResponse StatusInternalServerError
              (ErrorBody ("Database error: " ++ Error err)))
  | inr r =>
      (w, mkResponse StatusOK
            (InventoryBody (mkInventory albumID (quantity_available r) (last_updated r))))
  end.

(** ** Vocabulary of the properties *)

(** The conditional decrement of [event] applied in full: the row exists,
    holds at least the requested quantity, and loses exactly that much. *)
Definition decrement_of (event : OrderMessage) (inv inv' : gmap string Row) : Prop :=
  exists r,
    inv !! om_AlbumID event = Some r /\
    om_Quantity event <= quantity_available r /\
    inv' = <[om_AlbumID event :=
               mkRow (quantity_available r - om_Quantity event) (last_updated r)]> inv.

(** No storage call of [processOrderCreated] fails. *)
Definition storage_answers (env : Faults) : Prop :=
  f_begin env = None /\ f_exec env = None /\ f_rows env = None /\ f_commit env = None.

(** A storage call that [processOrderCreated] reaches for [event] fails:
    beginning the transaction, the update, reading the affected-row count,
    or the commit that follows an update of one row. *)
Definition storage_failure (env : Faults) (inv : gmap string Row)
    (event : OrderMessage) : Prop :=
  is_Some (f_begin env) \/ is_Some (f_exec env) \/ is_Some (f_rows env) \/
  (snd (update_if_sufficient (om_Quantity event) (om_AlbumID event) inv) = 1 /\
   is_Some (f_commit env)).

(** The write of a failure event for [orderID] with [reason]. *)
Definition failure_write (env : Faults) (orderID reason : string) : WriteCall :=
  mkWriteCall orderFailedTopic
    (mkOutMessage orderID (Failed (mkOrderFailedEvent orderID reason (now env))) [])
    (f_write env).

(** The write of a success event for [orderID]. *)
Definition success_write (env : Faults) (orderID : string) : WriteCall :=
  mkWriteCall orderSucceededTopic
    (mkOutMessage orderID (Succeeded (mkOrderSucceededEvent orderID (now env))) [])
    (f_write env).

(** ** Counting over lists *)

(** Sum of [f] over a list. *)
Fixpoint total {A : Type} (f : A -> Z) (l : list A) : Z :=
  match l with
  | [] => 0
  | x :: rest => f x + total f rest
  end.

Definition indicator (b : bool) : Z := if b then 1 else 0.

(** The outcome events handed to the writers for one order. *)
Definition is_success_for (orderID : string) (c : WriteCall) : bool :=
  match out_Value (wc_msg c) with
  | Succeeded e => String.eqb (os_OrderID e) orderID
  | Failed _ => false
  end.

Definition is_failure_for (orderID : string) (c : WriteCall) : bool :=
  match out_Value (wc_msg c) with
  | Failed e => String.eqb (of_OrderID e) orderID
  | Succeeded _ => false
  end.

Definition is_outcome_for (orderID : string) (c : WriteCall) : bool :=
  is_success_for orderID c || is_failure_for orderID c.

Definition outcomes_for (orderID : string) (w : World) : Z :=
  total (fun c => indicator (is_outcome_for orderID c)) (writes w).

(** ** Concurrent handlers of order-created events

    Several replicas run [processOrderCreated] against the same tables.
    Each handler advances by the storage and broker calls of the source; a
    schedule says which handler moves next and what it observes.  Storage
    behaves as PostgreSQL at its default isolation level: an [UPDATE] that
    matches a row locks it until its transaction ends, a second [UPDATE]
    that matches the same row waits for the lock and then evaluates its
    [WHERE] clause on the committed row, and a [WHERE] clause that matches
    no committed row affects nothing and waits for nothing. *)
Module Concurrent.

(** Where a handler stands. *)
Inductive pc : Type :=
| Received                  (* payload decoded *)
| Decrementing (row : Row)  (* UPDATE affected one row: the transaction holds
                               the row's lock and its new version *)
| Committed                 (* tx.Commit returned nil *)
| Rejected                  (* UPDATE affected no row *)
| SucceededDone             (* success event sent, returned nil *)
| FailedDone                (* failure event sent, returned nil *)
| Errored (e : error).      (* returned an error; the transaction is rolled back *)

Record handler : Type := mkHandler {
  h_event : OrderMessage;
  h_pc : pc
}.

Record config : Type := mkConfig {
  c_world : World;
  c_handlers : list handler
}.

Definition holds_lock (album : string) (h : handler) : bool :=
  match h_pc h with
  | Decrementing _ => String.eqb (om_AlbumID (h_event h)) album
  | _ => false
  end.

Definition row_locked (album : string) (hs : list handler) : bool :=
  existsb (holds_lock album) hs.

Definition terminal (h : handler) : bool :=
  match h_pc h with
  | SucceededDone | FailedDone | Errored _ => true
  | _ => false
  end.

Definition quiescent (c : config) : bool := forallb terminal (c_handlers c).

(** One move of handler [i]; [None] when there is no such handler, when it
    has returned, or when it waits for a row lock.  The moves are: begin,
    update and affected-row count; commit; publication of the outcome (the
    quantity read for the log before a failure event changes nothing). *)
Definition step (i : nat) (env : Faults) (c : config) : option config :=
  match c_handlers c !! i with
  | None => None
  | Some h =>
      let event := h_event h in
      let w := c_world c in
      let goto (w' : World) (p : pc) : option config :=
        Some (mkConfig w' (<[i := mkHandler event p]> (c_handlers c))) in
      match h_pc h with
      | Received =>
          match f_begin env with
          | Some err => goto w (Errored (ErrWrap "failed to begin transaction" err))
          | None =>
              match f_exec env with
              | Some err => goto w (Errored (ErrWrap "database update error" err))
              | None =>
                  match inventory w !! om_AlbumID event with
                  | Some r =>
                      if om_Quantity event <=? quantity_available r then
                        if row_locked (om_AlbumID event) (c_handlers c) then None
                        else
                          match f_rows env with
                          | Some err => goto w (Errored (ErrWrap "database result error" err))
                          | None =>
                              goto w (Decrementing
                                        (mkRow (quantity_available r - om_Quantity event)
                                               (last_updated r)))
                          end
                      else
                        match f_rows env with
                        | Some err => goto w (Errored (ErrWrap "database result error" err))
                        | None => goto w Rejected
                        end
                  | None =>
                      match f_rows env with
                      | Some err => goto w (Errored (ErrWrap "database result error" err))
                      | None => goto w Rejected
                      end
                  end
              end
          end
      | Decrementing row =>
          match f_commit env with
          | Some err => goto w (Errored (ErrWrap "transaction commit error" err))
          | None =>
              goto (set_inventory (<[om_AlbumID event := row]> (inventory w)) w) Committed
          end
      | Committed =>
          goto (fst (sendOrderSucceededEvent env w (om_OrderID event))) SucceededDone
      | Rejected =>
          goto (fst (sendOrderFailedEvent env w (om_OrderID event) "INSUFFICIENT_INVENTORY"))
               FailedDone
      | SucceededDone | FailedDone | Errored _ => None
      end
  end.

(** A schedule is run from left to right; a handler that cannot move
    leaves the configuration as it is. *)
Fixpoint run (sched : list (nat * Faults)) (c : config) : config :=
  match sched with
  | [] => c
  | (i, env) :: rest =>
      match step i env c with
      | Some c' => run rest c'
      | None => run rest c
      end
  end.

(** All handlers have decoded their event and none has started. *)
Definition start (w : World) (events : list OrderMessage) : config :=
  mkConfig w ((fun e => mkHandler e Received) <$> events).

Definition decremented (h : handler) : bool :=
  match h_pc h with
  | Committed | SucceededDone => true
  | _ => false
  end.

(** Quantity taken from [album] by the handlers whose decrement was
    committed. *)
Definition success_quantity (album : string) (hs : list handler) : Z :=
  total (fun h => if decremented h && String.eqb (om_AlbumID (h_event h)) album
                  then om_Quantity (h_event h) else 0) hs.

Definition succeeded_for (orderID : string) (h : handler) : bool :=
  match h_pc h with
  | SucceededDone => String.eqb (om_OrderID (h_event h)) orderID
  | _ => false
  end.

Definition failed_for (orderID : string) (h : handler) : bool :=
  match h_pc h with
  | FailedDone => String.eqb (om_OrderID (h_event h)) orderID
  | _ => false
  end.

(** Number of handlers that hold the lock of the row of [album]. *)
Definition lock_count (album : string) (hs : list handler) : Z :=
  total (fun h => indicator (holds_lock album h)) hs.

(** The moves of one handler, as [step] makes them: the world and the
    position before, the world and the position after. *)
Inductive move (hs : list handler) (env : Faults) (event : OrderMessage) (w : World)
    : pc -> World -> pc -> Prop :=
| move_abort e :
    ~ storage_answers env ->
    move hs env event w Received w (Errored e)
| move_lock r :
    inventory w !! om_AlbumID event = Some r ->
    om_Quantity event <= quantity_available r ->
    row_locked (om_AlbumID event) hs = false ->
    move hs env event w Received w
      (Decrementing (mkRow (quantity_available r - om_Quantity event) (last_updated r)))
| move_reject :
    (inventory w !! om_AlbumID event = None \/
     exists r, inventory w !! om_AlbumID event = Some r /\
               quantity_available r < om_Quantity event) ->
    move hs env event w Received w Rejected
| move_rollback row e :
    ~ storage_answers env ->
    move hs env event w (Decrementing row) w (Errored e)
| move_commit row :
    move hs env event w (Decrementing row)
      (set_inventory (<[om_AlbumID event := row]> (inventory w)) w) Committed
| move_success :
    move hs env event w Committed
      (add_write (success_write env (om_OrderID event)) w) SucceededDone
| move_failure :
    move hs env event w Rejected
      (add_write (failure_write env (om_OrderID event) "INSUFFICIENT_INVENTORY") w)
      FailedDone.

(** What a run keeps true of the row of [album], from a table [inv0]. *)
Record invariant (album : string) (inv0 : gmap string Row) (c : config) : Prop :=
  mkInvariant {
    inv_stock :
      stock (inventory (c_world c)) album =
      stock inv0 album - success_quantity album (c_handlers c);
    inv_nonneg : 0 <= stock (inventory (c_world c)) album;
    inv_lock : lock_count album (c_handlers c) <= 1;
    inv_pending :
      forall i h row,
        c_handlers c !! i = Some h ->
        h_pc h = Decrementing row ->
        om_AlbumID (h_event h) = album ->
        exists r,
          inventory (c_world c) !! album = Some r /\
          om_Quantity (h_event h) <= quantity_available r /\
          row = mkRow (quantity_available r - om_Quantity (h_event h)) (last_updated r)
  }.

(** Calls a handler still has to make, at most. *)
Definition rank (p : pc) : Z :=
  match p with
  | Received => 3
  | Decrementing _ | Rejected => 2
  | Committed => 1
  | SucceededDone | FailedDone | Errored _ => 0
  end.

Definition remaining (c : config) : Z :=
  total (fun h => rank (h_pc h)) (c_handlers c).

(** In the middle of its transaction or of its publication. *)
Definition busy (h : handler) : bool :=
  match h_pc h with
  | Decrementing _ | Committed | Rejected => true
  | _ => false
  end.

(** Has not returned an error. *)
Definition unfailed (h : handler) : Prop :=
  match h_pc h with
  | Errored _ => False
  | _ => True
  end.

Definition resolved (h : handler) : Prop :=
  h_pc h = SucceededDone \/ h_pc h = FailedDone.

Definition fault_free (sched : list (nat * Faults)) : Prop :=
  Forall (fun s => storage_answers (snd s)) sched.

End Concurrent.

(** ** Concurrent calls of [reserveInventory]

    Each of its three statements runs in its own implicit transaction, so
    statements of other calls may run between them. *)
Module Reserve.

Inductive pc : Type :=
| Called                        (* before the first SELECT *)
| Checked                       (* the quantity read covers the request *)
| Updated                       (* UPDATE executed *)
| Returned (e : option error).

Record call : Type := mkCall {
  r_albumID : string;
  r_quantity : Z;
  r_pc : pc
}.

Record config : Type := mkConfig {
  c_world : World;
  c_calls : list call
}.

Definition step (i : nat) (env : Faults) (c : config) : option config :=
  match c_calls c !! i with
  | None => None
  | Some k =>
      let w := c_world c in
      let goto (w' : World) (p : pc) : option config :=
        Some (mkConfig w' (<[i := mkCall (r_albumID k) (r_quantity k) p]> (c_calls c))) in
      match r_pc k with
      | Called =>
          match select_quantity (f_query env) (r_albumID k) (inventory w) with
          | inl err =>
              if decide (err = sqlErrNoRows) then goto w (Returned (Some errNoInventory))
              else goto w (Returned (Some err))
          | inr currentQuantity =>
              if currentQuantity <? r_quantity k
              then goto w (Returned (Some errInsufficientInventory))
              else goto w Checked
          end
      | Checked =>
          match f_exec env with
          | Some err => goto w (Returned (Some err))
          | None =>
              goto (set_inventory
                      (update_unconditional (r_quantity k) (now env) (r_albumID k)
                         (inventory w)) w)
                   Updated
          end
      | Updated =>
          match select_quantity (f_requery env) (r_albumID k) (inventory w) with
          | inl err => goto w (Returned (Some err))
          | inr newQuantity => goto w (Returned None)
          end
      | Returned _ => None
      end
  end.

Fixpoint run (sched : list (nat * Faults)) (c : config) : config :=
  match sched with
  | [] => c
  | (i, env) :: rest =>
      match step i env c with
      | Some c' => run rest c'
      | None => run rest c
      end
  end.

Definition start (w : World) (requests : list (string * Z)) : config :=
  mkConfig w ((fun r => mkCall (fst r) (snd r) Called) <$> requests).

End Reserve.

(** ** Sample data *)

Module Sample.

(** A stand-in for the JSON codec on three payloads. *)
Definition unmarshalOrder (payload : string) : error + OrderMessage :=
  if String.eqb payload "order o1: 1 of A" then
    inr (mkOrderMessage "o1" "A" 1 "u1" "2024-05-01T10:00:00Z")
  else if String.eqb payload "order o2: 1 of B" then
    inr (mkOrderMessage "o2" "B" 1 "u2" "2024-05-01T10:00:01Z")
  else inl (ErrText "invalid character 't' looking for beginning of value").

Definition unmarshalAlbum (payload : string) : error + AlbumCreatedEvent :=
  if String.eqb payload "album A: 5" then
    inr (mkAlbumCreatedEvent "A" "Blue" "Ann" 0 (Some 5))
  else if String.eqb payload "album C" then
    inr (mkAlbumCreatedEvent "C" "Red" "Bo" 0 None)
  else inl (ErrText "invalid character 't' looking for beginning of value").

Definition traceparent : Header :=
  mkHeader "traceparent" "00-0af7651916cd43dd8448eb211c80319c-b7ad6b7169203331-01".

Definition order_o1 : Message := mkMessage 0 7 "o1" "order o1: 1 of A" [traceparent].
Definition order_o2 : Message := mkMessage 0 8 "o2" "order o2: 1 of B" [].
Definition album_A : Message := mkMessage 0 3 "A" "album A: 5" [].
Definition garbage : Message := mkMessage 0 9 "k" "this is not json" [].

Definition shelf (n : Z) : World := mkWorld {[ "A" := mkRow n 0 ]} (Some ∅) [].

(** Four orders of one unit of A. *)
Definition four_orders : list OrderMessage :=
  [ mkOrderMessage "o1" "A" 1 "u1" "2024-05-01T10:00:00Z";
    mkOrderMessage "o2" "A" 1 "u2" "2024-05-01T10:00:00Z";
    mkOrderMessage "o3" "A" 1 "u3" "2024-05-01T10:00:00Z";
    mkOrderMessage "o4" "A" 1 "u4" "2024-05-01T10:00:00Z" ].

(** An interleaving of their handlers: handlers 1 and 2 each wait once for
    the row that another transaction has locked. *)
Definition interleaved : list (nat * Faults) :=
  (fun i => (i, calm 5)) <$>
    [0; 1; 0; 1; 2; 1; 3; 3; 2; 0; 1; 2; 3]%nat.

(** Two reservations of the last unit of A, statement by statement in
    turn. *)
Definition two_reservations : list (string * Z) := [("A", 1); ("A", 1)].

Definition alternating : list (nat * Faults) :=
  [(0%nat, calm 1); (1%nat, calm 2); (0%nat, calm 3);
   (1%nat, calm 4); (0%nat, calm 5); (1%nat, calm 6)].

End Sample.

(** ** Both consuming loops

    [main] starts the two loops as goroutines.  Each turn of either loop
    makes at most one change to the tables, in one statement, so a run of
    the service is a sequence of turns of the two loops in some order. *)
Inductive Delivery : Type :=
| OrderCreated (env : Faults) (msg : Message)
| AlbumCreated (env : Faults) (msg : Message).

Section Service.

Variable unmarshalOrder : string -> error + OrderMessage.
Variable unmarshalAlbum : string -> error + AlbumCreatedEvent.

Definition consumerTurn (d : Delivery) (w : World) : World * LoopOutcome :=
  match d with
  | OrderCreated env msg => orderConsumerTurn unmarshalOrder env w msg
  | AlbumCreated env msg => albumConsumerTurn unmarshalAlbum env w msg
  end.

Fixpoint runConsumers (ds : list Delivery) (w : World) : World * list LoopOutcome :=
  match ds with
  | [] => (w, [])
  | d :: rest =>
      let '(w1, o) := consumerTurn d w in
      let '(w2, os) := runConsumers rest w1 in
      (w2, o :: os)
  end.

(** Whether the payload of an order-created message decodes. *)
Definition decodes (d : Faults * Message) : bool :=
  match unmarshalOrder (m_Value (snd d)) with
  | inr _ => true
  | inl _ => false
  end.

End Service.

(** The quantity a written success event stands for, when [album_of] and
    [qty_of] give the item and the quantity of each order. *)
Definition granted (album_of : string -> string) (qty_of : string -> Z)
    (album : string) (c : WriteCall) : Z :=
  match out_Value (wc_msg c) with
  | Succeeded e =>
      if String.eqb (album_of (os_OrderID e)) album then qty_of (os_OrderID e) else 0
  | Failed _ => 0
  end.

(** The shape of the messages the reservation handler writes. *)
Definition outcome_write (c : WriteCall) : Prop :=
  out_Headers (wc_msg c) = [] /\
  match out_Value (wc_msg c) with
  | Failed e =>
      wc_topic c = orderFailedTopic /\
      of_OrderID e = out_Key (wc_msg c) /\
      of_Reason e = "INSUFFICIENT_INVENTORY"
  | Succeeded e =>
      wc_topic c = orderSucceededTopic /\
      os_OrderID e = out_Key (wc_msg c)
  end.

(** ** The other endpoints of the inventory service *)

(** [UpdateInventoryRequest]. *)
Record UpdateInventoryRequest : Type := mkUpdateInventoryRequest {
  req_QuantityAvailable : Z
}.

Definition StatusBadRequest : Z := 400.
Definition StatusForbidden : Z := 403.

(** What [getAllInventory] sends. *)
Inductive ListBody : Type :=
| InventoryListBody (items : list Inventory)
| ListErrorBody (message : string).

Record ListResponse : Type := mkListResponse {
  lr_status : Z;
  lr_body : ListBody
}.

(** What the calls of [getAllInventory] answer: [db.Query], then for the
    row at each position [rows.Next] (an error there ends the loop and is
    what [rows.Err] returns) and [rows.Scan]. *)
Record ListFaults : Type := mkListFaults {
  lf_query : option error;
  lf_next : nat -> option error;
  lf_scan : nat -> option error
}.

Definition calmList : ListFaults :=
  mkListFaults None (fun _ => None) (fun _ => None).

(** How the loop over the rows ended. *)
Inductive Scanned : Type :=
| ScanError (e : error)
| IterationError (e : error)
| Listed (items : list Inventory).

(** The loop [for rows.Next() { ... rows.Scan ... append }] from the row at
    position [k]. *)
Fixpoint scanRows (lf : ListFaults) (k : nat) (rows : list (string * Row))
    (inventoryList : list Inventory) : Scanned :=
  match lf_next lf k with
  | Some e => IterationError e
  | None =>
      match rows with
      | [] => Listed inventoryList
      | (album, r) :: rest =>
          match lf_scan lf k with
          | Some e => ScanError e
          | None =>
              scanRows lf (S k) rest
                (inventoryList ++
                 [mkInventory album (quantity_available r) (last_updated r)])
          end
      end
  end.

(** [getAllInventory]; the rows come in the order the table gives them. *)
Definition getAllInventory (lf : ListFaults) (w : World) : World * ListResponse :=
  match lf_query lf with
  | Some err =>
      (w, mkListResponse StatusInternalServerError
            (ListErrorBody ("Failed to query inventory: " ++ Error err)))
  | None =>
      match scanRows lf 0 (map_to_list (inventory w)) [] with
      | ScanError err =>
          (w, mkListResponse StatusInternalServerError
                (ListErrorBody ("Failed to scan inventory row: " ++ Error err)))
      | IterationError err =>
          (w, mkListResponse StatusInternalServerError
                (ListErrorBody ("Error iterating inventory rows: " ++ Error err)))
      | Listed inventoryList =>
          (w, mkListResponse StatusOK (InventoryListBody inventoryList))
      end
  end.

Section Handlers.

(** [c.ShouldBindJSON] into [UpdateInventoryRequest]: decoding and the
    [binding] tags. *)
Variable bindUpdate : string -> error + UpdateInventoryRequest.

(** What the [TIMESTAMP] column [last_updated] keeps of a Go [time.Time]
    written to it. *)
Variable asTimestamp : Time -> Time.

(** [updateInventory]; the body sent back carries [currentTime] itself,
    the row what the column keeps of it. *)
Definition updateInventory (env : Faults) (w : World) (albumIDFromPath body : string)
    : World * Response :=
  if String.eqb albumIDFromPath EmptyString then
    (w, mkResponse StatusBadRequest (ErrorBody "Missing albumId in URL path"))
  else
    match bindUpdate body with
    | inl err =>
        (w, mkResponse StatusBadRequest (ErrorBody ("Invalid request body: " ++ Error err)))
    | inr req =>
        let currentTime := now env in
        match f_exec env with
        | Some err =>
            (w, mkResponse StatusInternalServerError
                  (ErrorBody ("Failed to update inventory: " ++ Error err)))
        | None =>
            (set_inventory
               (insert_on_conflict_do_update asTimestamp albumIDFromPath
                  (req_QuantityAvailable req) currentTime (inventory w)) w,
             mkResponse StatusOK
               (InventoryBody
                  (mkInventory albumIDFromPath (req_QuantityAvailable req) currentTime)))
        end
    end.

(** The routes [main] registers, by the handler they lead to. *)
Inductive Route : Type :=
| GetInventoryRoute (albumId : string)               (* GET /api/inventory/:albumId *)
| GetAllInventoryRoute                               (* GET /api/inventory *)
| PutInventoryRoute (albumId : string) (body : string) (* PUT /api/inventory/:albumId *)
| HealthRoute.                                       (* GET /health *)

Inductive Answer : Type :=
| Item (r : Response)
| Listing (r : ListResponse)
| HealthOk.                                          (* 200, gin.H{ok: true} *)

(** [requireAdmin]: the response that aborts the request, if any.
    [clientType] is what [c.GetHeader] gives for Client-Type. *)
Definition requireAdmin (clientType : string) : option Response :=
  if String.eqb clientType "admin" then None
  else Some (mkResponse StatusForbidden
               (ErrorBody "Forbidden: Admin privileges required")).

(** A request through the route table: the two routes of [adminRoutes]
    pass [requireAdmin] first. *)
Definition serve (env : Faults) (lf : ListFaults) (w : World) (clientType : string)
    (route : Route) : World * Answer :=
  match route with
  | GetInventoryRoute albumId =>
      let '(w', r) := getInventory env w albumId in (w', Item r)
  | GetAllInventoryRoute =>
      match requireAdmin clientType with
      | Some forbidden => (w, Item forbidden)
      | None => let '(w', r) := getAllInventory lf w in (w', Listing r)
      end
  | PutInventoryRoute albumId body =>
      match requireAdmin clientType with
      | Some forbidden => (w, Item forbidden)
      | None => let '(w', r) := updateInventory env w albumId body in (w', Item r)
      end
  | HealthRoute => (w, HealthOk)
  end.

End Handlers.

(** ** The broker address

    [main] takes KAFKA_BROKER, or localhost:9092 when it is empty, and
    keeps what follows the first [://] when there is one
    ([strings.SplitN(kafkaBroker, "://", 2)]). *)
Fixpoint afterScheme (s : string) : option string :=
  match s with
  | EmptyString => None
  | String c rest =>
      match s with
      | String ":"%char (String "/"%char (String "/"%char tail)) => Some tail
      | _ => afterScheme rest
      end
  end.

Definition kafkaBrokerAddress (envValue : string) : string :=
  let kafkaBroker :=
    if String.eqb envValue EmptyString then "localhost:9092" else envValue in
  match afterScheme kafkaBroker with
  | Some address => address
  | None => kafkaBroker
  end.

(** ** Trace headers of a produced message *)

(** The loop of [InjectTraceInfoToKafkaMessage] over the carrier the
    propagator has filled: one header per entry.  Go ranges over a map in
    no fixed order; the order here is the one of [map_to_list]. *)
Definition InjectTraceInfoToKafkaMessage (carrier : gmap string string) : list Header :=
  (fun kv => mkHeader (fst kv) (snd kv)) <$> map_to_list carrier.

(** The value of the last header with [key], if any. *)
Fixpoint lastHeader (key : string) (headers : list Header) : option string :=
  match headers with
  | [] => None
  | h :: rest =>
      match lastHeader key rest with
      | Some v => Some v
      | None => if String.eqb (h_Key h) key then Some (h_Value h) else None
      end
  end.

(** ** Sample requests *)

Module SampleRequests.

(** A stand-in for the binding of the PUT body. *)
Definition bindUpdate (body : string) : error + UpdateInventoryRequest :=
  if String.eqb body "quantityAvailable: 25" then inr (mkUpdateInventoryRequest 25)
  else inl (ErrText "json: cannot unmarshal string into Go struct field").

(** A clock in nanoseconds and a column that keeps microseconds. *)
Definition asTimestamp (t : Time) : Time := 1000 * (t / 1000).

End SampleRequests.

(** ** The album service

    [album-service/main.go]: the catalogue whose [createAlbum] produces the
    album-created events.  The [albums] table is a finite map from the
    [SERIAL] id to a row; the id of a new row is the one the database
    returns.  A price is a [float64], kept abstract, and so is what the
    columns ([VARCHAR(100)], [NUMERIC(10,2)], [INTEGER], [VARCHAR(50)] in
    [initDB]) keep of the values written to them. *)
Module AlbumService.

(** [strconv.Itoa]. *)
Definition Itoa (n : Z) : string := NilZero.string_of_int (Z.to_int n).

Definition albumCreatedTopic : string := "album-created".

Definition StatusCreated : Z := 201.
Definition StatusNoContent : Z := 204.

Section Albums.

Variable Price : Type.

(** The binding [required,gt=0] of a price. *)
Variable priceAboveZero : Price -> bool.

(** [Album]. *)
Record Album : Type := mkAlbum {
  a_ID : string;
  a_Title : string;
  a_Artist : string;
  a_Price : Price;
  a_ReleaseYear : Z;
  a_Genre : string;
  a_InitialQuantity : option Z
}.

(** One row of [albums]. *)
Record AlbumRow : Type := mkAlbumRow {
  al_title : string;
  al_artist : string;
  al_price : Price;
  al_release_year : Z;
  al_genre : string
}.

(** One call of [kafkaWriter.WriteMessages] and its answer. *)
Record Publication : Type := mkPublication {
  p_msg : Message;
  p_result : option error
}.

Record Store : Type := mkStore {
  albums : gmap Z AlbumRow;
  published : list Publication
}.

(** What a handler observes of its environment. *)
Record Calls : Type := mkCalls {
  k_returning : error + Z;         (* INSERT ... RETURNING id, scanned *)
  k_query : option error;          (* QueryRow(...).Scan, when the query itself fails *)
  k_exec : option error;           (* db.Exec *)
  k_rows : option error;           (* res.RowsAffected *)
  k_write : option error;          (* kafkaWriter.WriteMessages *)
  k_carrier : gmap string string;  (* what the propagator injects for the request *)
  k_now : Time
}.

(** What [c.JSON] or [c.Status] sends. *)
Inductive ReplyBody : Type :=
| AlbumReply (a : Album)
| AlbumsReply (albums : list Album)
| ErrorReply (message : string)
| NoBody.

Record Reply : Type := mkReply {
  y_status : Z;
  y_body : ReplyBody
}.

(** The [binding] tags of [Album]: title, artist, release year and genre
    are required (not the zero value), the price is required and above
    zero, the initial quantity is absent or at least zero. *)
Definition validAlbum (a : Album) : bool :=
  negb (String.eqb (a_Title a) EmptyString)
  && negb (String.eqb (a_Artist a) EmptyString)
  && priceAboveZero (a_Price a)
  && negb (a_ReleaseYear a =? 0)
  && negb (String.eqb (a_Genre a) EmptyString)
  && match a_InitialQuantity a with
     | Some q => 0 <=? q
     | None => true
     end.

(** JSON decoding of a request body, the error of a failed validation,
    [json.Marshal] of the event, and the database's reading of an id given
    as text. *)
Variable decodeAlbum : string -> error + Album.
Variable validationError : Album -> error.
Variable marshalEvent : AlbumCreatedEvent -> error + string.
Variable idOfText : string -> error + Z.

(** The row that the table holds once a statement has written these
    values: each column keeps what its type can hold (a price to two
    decimal places).  A value that a column refuses makes the statement
    fail, which is an answer of [k_returning] or [k_exec]. *)
Variable kept : AlbumRow -> AlbumRow.

(** [c.ShouldBindJSON(&a)]. *)
Definition ShouldBindJSON (body : string) : error + Album :=
  match decodeAlbum body with
  | inl err => inl err
  | inr a => if validAlbum a then inr a else inl (validationError a)
  end.

(** The row written for the columns [title, artist, price, release_year,
    genre] from the fields of [a]. *)
Definition rowOf (a : Album) : AlbumRow :=
  kept (mkAlbumRow (a_Title a) (a_Artist a) (a_Price a) (a_ReleaseYear a) (a_Genre a)).

(** [Scan(&id, &a.Title, &a.Artist, &a.Price, &a.ReleaseYear, &a.Genre)]
    into a fresh [Album], then [a.ID = strconv.Itoa(id)]; the initial
    quantity, which no column holds, stays [nil]. *)
Definition albumOfRow (id : Z) (row : AlbumRow) : Album :=
  mkAlbum (Itoa id) (al_title row) (al_artist row) (al_price row) (al_release_year row)
    (al_genre row) None.

Definition withID (id : string) (a : Album) : Album :=
  mkAlbum id (a_Title a) (a_Artist a) (a_Price a) (a_ReleaseYear a) (a_Genre a)
    (a_InitialQuantity a).

(** [createAlbum]. *)
Definition createAlbum (env : Calls) (st : Store) (body : string) : Store * Reply :=
  match ShouldBindJSON body with
  | inl err =>
      (st, mkReply StatusBadRequest (ErrorReply ("Invalid request body: " ++ Error err)))
  | inr a0 =>
      match k_returning env with
      | inl err =>
          (st, mkReply StatusInternalServerError
                 (ErrorReply ("Failed to create album in DB: " ++ Error err)))
      | inr id =>
          let stored := <[id := rowOf a0]> (albums st) in
          let a := withID (Itoa id) a0 in
          let event :=
            mkAlbumCreatedEvent (a_ID a) (a_Title a) (a_Artist a) (k_now env)
              (a_InitialQuantity a) in
          match marshalEvent event with
          | inl _ => (mkStore stored (published st), mkReply StatusCreated (AlbumReply a))
          | inr eventJSON =>
              let headers := InjectTraceInfoToKafkaMessage (k_carrier env) in
              (mkStore stored
                 (published st ++
                  [mkPublication (mkMessage 0 0 (a_ID a) eventJSON headers) (k_write env)]),
               mkReply StatusCreated (AlbumReply a))
          end
      end
  end.

(** [SELECT ... FROM albums WHERE id = $1] with the id given as text,
    followed by [Scan]. *)
Definition selectAlbum (env : Calls) (st : Store) (id : string) : error + (Z * AlbumRow) :=
  match k_query env with
  | Some err => inl err
  | None =>
      match idOfText id with
      | inl err => inl err
      | inr n =>
          match albums st !! n with
          | Some row => inr (n, row)
          | None => inl sqlErrNoRows
          end
      end
  end.

(** [getAlbum]. *)
Definition getAlbum (env : Calls) (st : Store) (id : string) : Store * Reply :=
  match selectAlbum env st id with
  | inl err =>
      if decide (err = sqlErrNoRows) then
        (st, mkReply StatusNotFound (ErrorReply "Album not found"))
      else
        (st, mkReply StatusInternalServerError (ErrorReply ("Database error: " ++ Error err)))
  | inr (dbID, row) => (st, mkReply StatusOK (AlbumReply (albumOfRow dbID row)))
  end.

(** How the loop of [getAllAlbums] over the rows ended. *)
Inductive AlbumsScanned : Type :=
| AlbumScanError (e : error)
| AlbumIterationError (e : error)
| AlbumsListed (items : list Album).

(** The loop [for rows.Next() { ... rows.Scan ... append }] of
    [getAllAlbums] from the row at position [k]. *)
Fixpoint scanAlbums (lf : ListFaults) (k : nat) (rows : list (Z * AlbumRow))
    (listed : list Album) : AlbumsScanned :=
  match lf_next lf k with
  | Some e => AlbumIterationError e
  | None =>
      match rows with
      | [] => AlbumsListed listed
      | (id, row) :: rest =>
          match lf_scan lf k with
          | Some e => AlbumScanError e
          | None => scanAlbums lf (S k) rest (listed ++ [albumOfRow id row])
          end
      end
  end.

(** [getAllAlbums]; the rows come in the order the table gives them. *)
Definition getAllAlbums (lf : ListFaults) (st : Store) : Store * Reply :=
  match lf_query lf with
  | Some err =>
      (st, mkReply StatusInternalServerError
             (ErrorReply ("Failed to query albums: " ++ Error err)))
  | None =>
      match scanAlbums lf 0 (map_to_list (albums st)) [] with
      | AlbumScanError err =>
          (st, mkReply StatusInternalServerError
                 (ErrorReply ("Failed to scan album row: " ++ Error err)))
      | AlbumIterationError err =>
          (st, mkReply StatusInternalServerError
                 (ErrorReply ("Error iterating album rows: " ++ Error err)))
      | AlbumsListed listed => (st, mkReply StatusOK (AlbumsReply listed))
      end
  end.

(** A statement [... WHERE id = $n] with the id given as text: the table
    after it and the number of rows affected. *)
Definition execOnId (env : Calls) (st : Store) (id : string)
    (change : Z -> gmap Z AlbumRow -> gmap Z AlbumRow) : error + (gmap Z AlbumRow * Z) :=
  match k_exec env with
  | Some err => inl err
  | None =>
      match idOfText id with
      | inl err => inl err
      | inr n =>
          match albums st !! n with
          | Some _ => inr (change n (albums st), 1)
          | None => inr (albums st, 0)
          end
      end
  end.

(** [updateAlbum]; the id of the body sent back is the path parameter as
    it was given. *)
Definition updateAlbum (env : Calls) (st : Store) (id body : string) : Store * Reply :=
  match ShouldBindJSON body with
  | inl err =>
      (st, mkReply StatusBadRequest (ErrorReply ("Invalid request body: " ++ Error err)))
  | inr a =>
      match execOnId env st id (fun n t => <[n := rowOf a]> t) with
      | inl err =>
          (st, mkReply StatusInternalServerError
                 (ErrorReply ("Failed to update album: " ++ Error err)))
      | inr (table, rowsAffected) =>
          match k_rows env with
          | Some err =>
              (mkStore table (published st),
               mkReply StatusInternalServerError
                 (ErrorReply ("Failed to get affected rows: " ++ Error err)))
          | None =>
              if rowsAffected =? 0 then
                (mkStore table (published st),
                 mkReply StatusNotFound (ErrorReply "Album not found"))
              else (mkStore table (published st), mkReply StatusOK (AlbumReply (withID id a)))
          end
      end
  end.

(** [deleteAlbum]. *)
Definition deleteAlbum (env : Calls) (st : Store) (id : string) : Store * Reply :=
  match execOnId env st id (fun n t => delete n t) with
  | inl err =>
      (st, mkReply StatusInternalServerError
             (ErrorReply ("Failed to delete album: " ++ Error err)))
  | inr (table, rowsAffected) =>
      match k_rows env with
      | Some err =>
          (mkStore table (published st),
           mkReply StatusInternalServerError
             (ErrorReply ("Failed to get affected rows: " ++ Error err)))
      | None =>
          if rowsAffected =? 0 then
            (mkStore table (published st),
             mkReply StatusNotFound (ErrorReply "Album not found"))
          else (mkStore table (published st), mkReply StatusNoContent NoBody)
      end
  end.

End Albums.

Arguments mkAlbum {Price}.
Arguments a_ID {Price}.
Arguments a_Title {Price}.
Arguments a_Artist {Price}.
Arguments a_Price {Price}.
Arguments a_ReleaseYear {Price}.
Arguments a_Genre {Price}.
Arguments a_InitialQuantity {Price}.
Arguments mkAlbumRow {Price}.
Arguments al_title {Price}.
Arguments al_artist {Price}.
Arguments al_price {Price}.
Arguments al_release_year {Price}.
Arguments al_genre {Price}.
Arguments mkStore {Price}.
Arguments albums {Price}.
Arguments published {Price}.
Arguments AlbumReply {Price}.
Arguments AlbumsReply {Price}.
Arguments ErrorReply {Price}.
Arguments NoBody {Price}.
Arguments mkReply {Price}.
Arguments y_status {Price}.
Arguments y_body {Price}.
Arguments validAlbum {Price}.
Arguments ShouldBindJSON {Price}.
Arguments rowOf {Price}.
Arguments albumOfRow {Price}.
Arguments AlbumScanError {Price}.
Arguments AlbumIterationError {Price}.
Arguments AlbumsListed {Price}.
Arguments scanAlbums {Price}.
Arguments getAllAlbums {Price}.
Arguments withID {Price}.
Arguments createAlbum {Price}.
Arguments selectAlbum {Price}.
Arguments getAlbum {Price}.
Arguments execOnId {Price}.
Arguments updateAlbum {Price}.
Arguments deleteAlbum {Price}.

End AlbumService.

(** The message a consumer reads for a produced one: the broker adds the
    partition and the offset. *)
Definition delivered (partition offset : Z) (m : Message) : Message :=
  mkMessage partition offset (m_Key m) (m_Value m) (m_Headers m).

(** ** The reader of the order loop

    [startOrderConsumer] makes its reader with [kafka.NewReader] and a
    [GroupID], and takes each message with [reader.ReadMessage].  kafka-go
    is a library outside the repository; the reader below follows its
    documentation.  [FetchMessage] returns the next message of the
    partition.  [CommitMessages] moves the committed offset of the group
    past the message.  For a reader with a [GroupID], [ReadMessage] is
    [FetchMessage] followed by the reader's own [CommitMessages] for the
    message fetched, done at once when the configuration sets no
    [CommitInterval], as here.  A reader that joins the group starts at the
    committed offset. *)
Module Group.

Record Reader : Type := mkReader {
  records : list Message;   (* the partition, oldest first; offset = index *)
  position : nat;           (* the next message [FetchMessage] returns *)
  committed : nat           (* the committed offset of the group *)
}.

(** The answers of the two calls inside [ReadMessage]. *)
Record ReadFaults : Type := mkReadFaults {
  rf_fetch : option error;
  rf_commit : option error
}.

Definition quiet : ReadFaults := mkReadFaults None None.

(** [reader.CommitMessages(ctx, msg)], when it succeeds. *)
Definition CommitMessages (r : Reader) (msg : Message) : Reader :=
  mkReader (records r) (position r) (Z.to_nat (m_Offset msg + 1)).

Inductive Read : Type :=
| Waiting                              (* no message yet: the call does not return *)
| ReadError (r : Reader) (e : error)
| ReadOk (r : Reader) (msg : Message).

(** [reader.ReadMessage(ctx)] of a reader with a [GroupID]. *)
Definition ReadMessage (rf : ReadFaults) (r : Reader) : Read :=
  match rf_fetch rf with
  | Some e => ReadError r (ErrWrap "fetching message" e)
  | None =>
      match records r !! position r with
      | None => Waiting
      | Some m =>
          let msg := delivered 0 (Z.of_nat (position r)) m in
          let fetched := mkReader (records r) (S (position r)) (committed r) in
          match rf_commit rf with
          | Some e => ReadError fetched (ErrWrap "committing message" e)
          | None => ReadOk (CommitMessages fetched msg) msg
          end
      end
  end.

(** A reader of the same group made anew, as after a restart of the
    service. *)
Definition rejoin (r : Reader) : Reader :=
  mkReader (records r) (committed r) (committed r).

Section Loop.

Variable unmarshalOrder : string -> error + OrderMessage.

(** The loop of [startOrderConsumer] on its reader, one turn for each
    element of [turns], up to the turn in which [ReadMessage] waits for a
    message: an error of [ReadMessage] is logged and the loop continues; a
    message read is handed to [processOrderCreated], and the loop calls
    [CommitMessages] for it when that returns nil.  The result lists the
    messages handled, in order, each with what its turn did. *)
Fixpoint startOrderConsumer (turns : list (ReadFaults * Faults)) (r : Reader) (w : World)
    : Reader * World * list (Message * LoopOutcome) :=
  match turns with
  | [] => (r, w, [])
  | (rf, env) :: rest =>
      match ReadMessage rf r with
      | Waiting => (r, w, [])
      | ReadError r1 _ => startOrderConsumer rest r1 w
      | ReadOk r1 msg =>
          let '(w1, o) := orderConsumerTurn unmarshalOrder env w msg in
          let r2 :=
            match o with
            | OffsetCommitted => CommitMessages r1 msg
            | ProcessingFailed _ | CommitFailed _ => r1
            end in
          let '(r3, w3, handled) := startOrderConsumer rest r2 w1 in
          (r3, w3, (msg, o) :: handled)
      end
  end.

End Loop.

End Group.

(** ** A storage outage *)

Module SampleOutage.

(** The order-created partition: o1, then o2. *)
Definition partition : list Message :=
  [ mkMessage 0 0 "o1" "order o1: 1 of A" [];
    mkMessage 0 1 "o2" "order o2: 1 of B" [] ].

(** Both items in stock. *)
Definition stocked : World :=
  mkWorld {[ "A" := mkRow 5 0; "B" := mkRow 5 0 ]} (Some ∅) [].

(** Storage cannot be reached: [db.BeginTx] fails. *)
Definition outage : Faults :=
  mkFaults (Some (ErrText "dial tcp: connection refused")) None None None None None None None 1.

(** The outage lasts for the first turn only. *)
Definition turns : list (Group.ReadFaults * Faults) :=
  [(Group.quiet, outage); (Group.quiet, calm 2); (Group.quiet, calm 3)].

End SampleOutage.

(** ** Sample albums *)

Module SampleAlbums.

(** Prices in cents stand in for [float64]. *)
Definition priceAboveZero (p : Z) : bool := 0 <? p.

Definition decodeAlbum (body : string) : error + AlbumService.Album Z :=
  if String.eqb body "Blue by Ann, 5 in stock" then
    inr (AlbumService.mkAlbum EmptyString "Blue" "Ann" 999 2024 "Jazz" (Some 5))
  else if String.eqb body "Red by Bo, -1 in stock" then
    inr (AlbumService.mkAlbum EmptyString "Red" "Bo" 999 2024 "Rock" (Some (-1)))
  else inl (ErrText "unexpected end of JSON input").

Definition validationError (a : AlbumService.Album Z) : error :=
  ErrText "Field validation failed".

Definition marshalEvent (e : AlbumCreatedEvent) : error + string :=
  inr ("album " ++ ac_AlbumID e).

Definition unmarshalAlbum (payload : string) : error + AlbumCreatedEvent :=
  if String.eqb payload "album 7" then
    inr (mkAlbumCreatedEvent "7" "Blue" "Ann" 20 (Some 5))
  else inl (ErrText "invalid character")%string.

(** Prices in cents are kept as they are. *)
Definition kept (row : AlbumService.AlbumRow Z) : AlbumService.AlbumRow Z := row.

Definition idOfText (id : string) : error + Z :=
  if String.eqb id "7" then inr 7
  else if String.eqb id "8" then inr 8
  else inl (ErrText "invalid input syntax for type integer").

Definition request : AlbumService.Calls :=
  AlbumService.mkCalls (inr 7) None None None None
    {[ "traceparent" := "00-0af7651916cd43dd8448eb211c80319c-b7ad6b7169203331-01" ]} 20.

Definition empty : AlbumService.Store Z := AlbumService.mkStore ∅ [].

End SampleAlbums.

(** * Properties *)

(** ** The SQL statements *)

Lemma update_if_sufficient_hit q album inv r :
  inv !! album = Some r -> q <= quantity_available r ->
  update_if_sufficient q album inv =
    (<[album := mkRow (quantity_available r - q) (last_updated r)]> inv, 1).
Proof.
  intros Hrow Hle. unfold update_if_sufficient. rewrite Hrow.
  destruct (Z.leb_spec q (quantity_available r)); [reflexivity | lia].
Qed.

Lemma update_if_sufficient_short q album inv r :
  inv !! album = Some r -> quantity_available r < q ->
  update_if_sufficient q album inv = (inv, 0).
Proof.
  intros Hrow Hlt. unfold update_if_sufficient. rewrite Hrow.
  destruct (Z.leb_spec q (quantity_available r)); [lia | reflexivity].
Qed.

Lemma update_if_sufficient_absent q album inv :
  inv !! album = None -> update_if_sufficient q album inv = (inv, 0).
Proof. intros Hrow. unfold update_if_sufficient. by rewrite Hrow. Qed.

(** The update affects one row and is the full decrement, or affects none
    and changes nothing. *)
Lemma update_if_sufficient_cases q album inv :
  (exists r, inv !! album = Some r /\ q <= quantity_available r /\
             update_if_sufficient q album inv =
               (<[album := mkRow (quantity_available r - q) (last_updated r)]> inv, 1))
  \/ ((inv !! album = None \/ exists r, inv !! album = Some r /\ quantity_available r < q)
      /\ update_if_sufficient q album inv = (inv, 0)).
Proof.
  destruct (inv !! album) as [r|] eqn:Hrow.
  - destruct (Z.le_gt_cases q (quantity_available r)) as [Hle|Hgt].
    + left. exists r. split_and!; [done | done |]. by apply update_if_sufficient_hit.
    + right. split; [right; exists r; split; [done | lia] |].
      apply (update_if_sufficient_short _ _ _ r); [done | lia].
  - right. split; [by left |]. by apply update_if_sufficient_absent.
Qed.

Lemma stock_insert_eq inv album r :
  stock (<[album := r]> inv) album = quantity_available r.
Proof. unfold stock. by rewrite lookup_insert_eq. Qed.

Lemma stock_insert_ne inv album other r :
  album <> other -> stock (<[album := r]> inv) other = stock inv other.
Proof. intros Hne. unfold stock. by rewrite lookup_insert_ne. Qed.

Lemma update_if_sufficient_nonneg q album inv item :
  0 <= stock inv item -> 0 <= stock (fst (update_if_sufficient q album inv)) item.
Proof.
  intros Hnn.
  destruct (update_if_sufficient_cases q album inv)
    as [(r & Hrow & Hle & ->) | [_ ->]]; [| done].
  cbn [fst]. destruct (decide (album = item)) as [<-|Hne].
  - rewrite stock_insert_eq. cbn. lia.
  - by rewrite stock_insert_ne.
Qed.

(** ** The Processed-Order Record *)

(** Creating the table gives an empty record, keeps an existing one, and
    touches nothing else. *)
Lemma initProcessedOrdersTable_creates w :
  processed_orders (initProcessedOrdersTable w) =
    Some (default ∅ (processed_orders w))
  /\ inventory (initProcessedOrdersTable w) = inventory w
  /\ writes (initProcessedOrdersTable w) = writes w.
Proof.
  unfold initProcessedOrdersTable.
  destruct (processed_orders w) as [po|] eqn:Hpo; cbn; [by rewrite Hpo | done].
Qed.

(** ** Sending outcome events *)

Lemma sendOrderFailedEvent_eq env w orderID reason :
  sendOrderFailedEvent env w orderID reason =
    (add_write (failure_write env orderID reason) w, f_write env).
Proof. reflexivity. Qed.

Lemma sendOrderSucceededEvent_eq env w orderID :
  sendOrderSucceededEvent env w orderID =
    (add_write (success_write env orderID) w, f_write env).
Proof. reflexivity. Qed.

(** ** One order-created message *)

Section OrderCreated.

Variable unmarshalOrder : string -> error + OrderMessage.

Lemma processOrderCreated_undecodable env w msg err :
  unmarshalOrder (m_Value msg) = inl err ->
  processOrderCreated unmarshalOrder env w msg = (w, None).
Proof. intros Hdec. unfold processOrderCreated. by rewrite Hdec. Qed.

(** With storage answering, the handler is the conditional decrement
    followed by one write: success after one affected row, failure after
    none. *)
Lemma processOrderCreated_answers env w msg event :
  unmarshalOrder (m_Value msg) = inr event ->
  storage_answers env ->
  processOrderCreated unmarshalOrder env w msg =
    let upd := update_if_sufficient (om_Quantity event) (om_AlbumID event) (inventory w) in
    if snd upd =? 1
    then (add_write (success_write env (om_OrderID event)) (set_inventory (fst upd) w), None)
    else (add_write (failure_write env (om_OrderID event) "INSUFFICIENT_INVENTORY") w, None).
Proof.
  intros Hdec (Hb & He & Hr & Hc). unfold processOrderCreated.
  rewrite Hdec, Hb, He, Hr.
  destruct (update_if_sufficient _ _ _) as [inv' rows]. cbn [fst snd].
  destruct (rows =? 1); [by rewrite Hc |]. reflexivity.
Qed.

(** An error is returned exactly for a storage failure on a decoded
    event, and then nothing has changed. *)
Lemma processOrderCreated_error env w msg :
  (is_Some (snd (processOrderCreated unmarshalOrder env w msg)) <->
   exists event, unmarshalOrder (m_Value msg) = inr event /\
                 storage_failure env (inventory w) event)
  /\ (is_Some (snd (processOrderCreated unmarshalOrder env w msg)) ->
      fst (processOrderCreated unmarshalOrder env w msg) = w).
Proof.
  unfold processOrderCreated, storage_failure.
  destruct (unmarshalOrder (m_Value msg)) as [err|event] eqn:Hdec; cbn.
  { split; [| done]. split; [by intros [? ?] | by intros (? & ? & _)]. }
  destruct (f_begin env) as [eb|]; cbn.
  { split; [| done]. split; [| by eauto]. intros _. exists event. split; [done|]. left. by eauto. }
  destruct (f_exec env) as [ee|]; cbn.
  { split; [| done]. split; [| by eauto]. intros _. exists event. split; [done|].
    right; left. by eauto. }
  destruct (update_if_sufficient _ _ _) as [inv' rows] eqn:Hupd. cbn.
  destruct (f_rows env) as [er|]; cbn.
  { split; [| done]. split; [| by eauto]. intros _. exists event. split; [done|].
    right; right; left. by eauto. }
  destruct (Z.eqb_spec rows 1) as [->|Hrows].
  - destruct (f_commit env) as [ec|]; cbn.
    + split; [| done]. split; [| by eauto]. intros _. exists event. split; [done|].
      do 3 right. rewrite Hupd. split; [done | by eauto].
    + split; [| by intros [? ?]]. split; [by intros [? ?] |].
      intros (ev & Hev & [H|[H|[H|[_ H]]]]); by destruct H.
  - cbn. split; [| by intros [? ?]]. split; [by intros [? ?] |].
    intros (ev & Hev & [H|[H|[H|[H _]]]]); try by destruct H.
    assert (ev = event) as -> by congruence.
    rewrite Hupd in H. done.
Qed.

(** The table after the handler is the table before, or the full
    decrement of the decoded event. *)
Lemma processOrderCreated_inventory env w msg :
  inventory (fst (processOrderCreated unmarshalOrder env w msg)) = inventory w \/
  exists event,
    unmarshalOrder (m_Value msg) = inr event /\
    decrement_of event (inventory w)
      (inventory (fst (processOrderCreated unmarshalOrder env w msg))).
Proof.
  unfold processOrderCreated.
  destruct (unmarshalOrder (m_Value msg)) as [err|event] eqn:Hdec; [by left |].
  destruct (f_begin env); [by left |].
  destruct (f_exec env); [by left |].
  destruct (update_if_sufficient_cases (om_Quantity event) (om_AlbumID event) (inventory w))
    as [(r & Hrow & Hle & ->) | [_ ->]].
  - destruct (f_rows env); [by left |]. cbn.
    destruct (f_commit env); [by left |]. cbn.
    right. exists event. split; [done |]. exists r. by split_and!.
  - destruct (f_rows env); by left.
Qed.

Lemma processOrderCreated_nonneg env w msg item :
  0 <= stock (inventory w) item ->
  0 <= stock (inventory (fst (processOrderCreated unmarshalOrder env w msg))) item.
Proof.
  intros Hnn.
  destruct (processOrderCreated_inventory env w msg)
    as [-> | (event & _ & r & Hrow & Hle & ->)]; [done |].
  destruct (decide (om_AlbumID event = item)) as [<-|Hne].
  - rewrite stock_insert_eq. cbn. lia.
  - by rewrite stock_insert_ne.
Qed.

(** The handler neither reads nor writes [processed_orders]. *)
Lemma processOrderCreated_processed_orders env w msg :
  processed_orders (fst (processOrderCreated unmarshalOrder env w msg)) =
  processed_orders w.
Proof.
  unfold processOrderCreated.
  destruct (unmarshalOrder (m_Value msg)); [done |].
  destruct (f_begin env); [done |]. destruct (f_exec env); [done |].
  destruct (update_if_sufficient _ _ _) as [inv' rows].
  destruct (f_rows env); [done |].
  destruct (rows =? 1); [| done]. by destruct (f_commit env).
Qed.

Lemma processOrderCreated_ignores_record env w msg po :
  processOrderCreated unmarshalOrder env (mkWorld (inventory w) po (writes w)) msg =
  (mkWorld (inventory (fst (processOrderCreated unmarshalOrder env w msg))) po
           (writes (fst (processOrderCreated unmarshalOrder env w msg))),
   snd (processOrderCreated unmarshalOrder env w msg)).
Proof.
  unfold processOrderCreated. cbn.
  destruct (unmarshalOrder (m_Value msg)); [done |].
  destruct (f_begin env); [done |]. destruct (f_exec env); [done |].
  destruct (update_if_sufficient _ _ _) as [inv' rows].
  destruct (f_rows env); [done |].
  destruct (rows =? 1); [| done]. by destruct (f_commit env).
Qed.

Lemma orderConsumerTurn_world env w msg :
  fst (orderConsumerTurn unmarshalOrder env w msg) =
  fst (processOrderCreated unmarshalOrder env w msg).
Proof.
  unfold orderConsumerTurn.
  destruct (processOrderCreated unmarshalOrder env w msg) as [w' [e|]]; [done |].
  by destruct (f_offsets env).
Qed.

Lemma orderConsumerTurn_marked env w msg :
  marked_consumed (snd (orderConsumerTurn unmarshalOrder env w msg)) =
  match snd (processOrderCreated unmarshalOrder env w msg) with
  | Some _ => false
  | None => true
  end.
Proof.
  unfold orderConsumerTurn.
  destruct (processOrderCreated unmarshalOrder env w msg) as [w' [e|]]; [done |].
  by destruct (f_offsets env).
Qed.

Lemma startOrderConsumer_cons env msg rest w :
  fst (startOrderConsumer unmarshalOrder ((env, msg) :: rest) w) =
  fst (startOrderConsumer unmarshalOrder rest
         (fst (processOrderCreated unmarshalOrder env w msg))).
Proof.
  cbn. rewrite <- orderConsumerTurn_world.
  destruct (orderConsumerTurn unmarshalOrder env w msg) as [w1 o]. cbn.
  by destruct (startOrderConsumer unmarshalOrder rest w1).
Qed.

Lemma startOrderConsumer_processed_orders deliveries w :
  processed_orders (fst (startOrderConsumer unmarshalOrder deliveries w)) =
  processed_orders w.
Proof.
  revert w. induction deliveries as [|[env msg] rest IH]; intros w; [done |].
  rewrite startOrderConsumer_cons, IH. apply processOrderCreated_processed_orders.
Qed.

Lemma startOrderConsumer_nonneg deliveries w item :
  0 <= stock (inventory w) item ->
  0 <= stock (inventory (fst (startOrderConsumer unmarshalOrder deliveries w))) item.
Proof.
  revert w. induction deliveries as [|[env msg] rest IH]; intros w Hnn; [done |].
  rewrite startOrderConsumer_cons. apply IH. by apply processOrderCreated_nonneg.
Qed.

End OrderCreated.

(** ** One album-created message *)

Section AlbumCreated.

Variable unmarshalAlbum : string -> error + AlbumCreatedEvent.

Lemma albumConsumerTurn_world env w msg :
  fst (albumConsumerTurn unmarshalAlbum env w msg) =
  fst (processAlbumCreatedEvent unmarshalAlbum env w msg).
Proof.
  unfold albumConsumerTurn.
  destruct (processAlbumCreatedEvent unmarshalAlbum env w msg) as [w' [e|]]; [done |].
  by destruct (f_offsets env).
Qed.

Lemma startAlbumCreatedConsumer_cons env msg rest w :
  fst (startAlbumCreatedConsumer unmarshalAlbum ((env, msg) :: rest) w) =
  fst (startAlbumCreatedConsumer unmarshalAlbum rest
         (fst (processAlbumCreatedEvent unmarshalAlbum env w msg))).
Proof.
  cbn. rewrite <- albumConsumerTurn_world.
  destruct (albumConsumerTurn unmarshalAlbum env w msg) as [w1 o]. cbn.
  by destruct (startAlbumCreatedConsumer unmarshalAlbum rest w1).
Qed.

(** Once the item has a row, the handler leaves the table as it is,
    whatever the environment does. *)
Lemma processAlbumCreatedEvent_existing env w msg event :
  unmarshalAlbum (m_Value msg) = inr event ->
  is_Some (inventory w !! ac_AlbumID event) ->
  inventory (fst (processAlbumCreatedEvent unmarshalAlbum env w msg)) = inventory w.
Proof.
  intros Hdec [r Hrow]. unfold processAlbumCreatedEvent. rewrite Hdec.
  destruct (f_exec env); [done |]. cbn.
  unfold insert_on_conflict_do_nothing. by rewrite Hrow.
Qed.

Lemma redelivered_album_existing envs w msg event :
  unmarshalAlbum (m_Value msg) = inr event ->
  is_Some (inventory w !! ac_AlbumID event) ->
  inventory (fst (startAlbumCreatedConsumer unmarshalAlbum
                    (map (fun env => (env, msg)) envs) w)) = inventory w.
Proof.
  intros Hdec. revert w. induction envs as [|env envs IH]; intros w Hrow; [done |].
  cbn [map]. rewrite startAlbumCreatedConsumer_cons.
  pose proof (processAlbumCreatedEvent_existing env w msg event Hdec Hrow) as Hsame.
  rewrite IH; [done |]. by rewrite Hsame.
Qed.

End AlbumCreated.

(** ** Counting written events *)

Lemma total_app {A : Type} (f : A -> Z) (l1 l2 : list A) :
  total f (l1 ++ l2) = total f l1 + total f l2.
Proof. induction l1 as [|x l1 IH]; cbn; [done | lia]. Qed.

Lemma outcomes_for_add_write orderID c w :
  outcomes_for orderID (add_write c w) =
  outcomes_for orderID w + indicator (is_outcome_for orderID c).
Proof. unfold outcomes_for, add_write. cbn. rewrite total_app. cbn. lia. Qed.

Lemma is_outcome_for_success env orderID :
  is_outcome_for orderID (success_write env orderID) = true.
Proof. unfold is_outcome_for, is_success_for. cbn. by rewrite String.eqb_refl. Qed.

Lemma is_outcome_for_failure env orderID reason :
  is_outcome_for orderID (failure_write env orderID reason) = true.
Proof.
  unfold is_outcome_for, is_failure_for, is_success_for. cbn. by rewrite String.eqb_refl.
Qed.

Lemma calm_answers t : storage_answers (calm t).
Proof. by repeat split. Qed.

(** One delivery in a calm environment: one more outcome event, the
    conditional decrement applied to the table, the record untouched. *)
Lemma calm_delivery unmarshalOrder t w msg event :
  unmarshalOrder (m_Value msg) = inr event ->
  let w' := fst (processOrderCreated unmarshalOrder (calm t) w msg) in
  outcomes_for (om_OrderID event) w' = outcomes_for (om_OrderID event) w + 1 /\
  inventory w' =
    fst (update_if_sufficient (om_Quantity event) (om_AlbumID event) (inventory w)) /\
  processed_orders w' = processed_orders w.
Proof.
  intros Hdec. cbn zeta.
  rewrite (processOrderCreated_answers _ _ _ _ event Hdec (calm_answers t)). cbn zeta.
  destruct (update_if_sufficient_cases (om_Quantity event) (om_AlbumID event) (inventory w))
    as [(r & _ & _ & ->) | [_ ->]]; cbn [fst snd Z.eqb Pos.eqb].
  - rewrite outcomes_for_add_write, is_outcome_for_success. by cbn.
  - rewrite outcomes_for_add_write, is_outcome_for_failure. by cbn.
Qed.

(** * The claims *)

(** C1 (as amended).  [processOrderCreated] does not consult the
    Processed-Order Record: its result does not depend on the record and it
    leaves the record as it is.  Every delivery of a decodable order-created
    event that meets no fault attempts the conditional decrement again and
    hands one more outcome event to the broker, so delivering the same event
    [n] times yields [n] outcome events for that order and the table of [n]
    successive conditional decrements. *)
Theorem C1_redelivery_is_processed_again :
  forall (unmarshalOrder : string -> error + OrderMessage) (msg : Message)
         (event : OrderMessage) (times : list Time) (w : World),
    unmarshalOrder (m_Value msg) = inr event ->
    let w' := fst (startOrderConsumer unmarshalOrder
                     (map (fun t => (calm t, msg)) times) w) in
    outcomes_for (om_OrderID event) w' =
      outcomes_for (om_OrderID event) w + Z.of_nat (length times)
    /\ inventory w' =
         Nat.iter (length times)
           (fun inv => fst (update_if_sufficient (om_Quantity event) (om_AlbumID event) inv))
           (inventory w)
    /\ (forall deliveries,
          processed_orders (fst (startOrderConsumer unmarshalOrder deliveries w)) =
          processed_orders w)
    /\ (forall env po,
          processOrderCreated unmarshalOrder env (mkWorld (inventory w) po (writes w)) msg =
          (mkWorld (inventory (fst (processOrderCreated unmarshalOrder env w msg))) po
                   (writes (fst (processOrderCreated unmarshalOrder env w msg))),
           snd (processOrderCreated unmarshalOrder env w msg))).
Proof.
  intros unmarshalOrder msg event times w Hdec. cbn zeta.
  split_and!; [| | | intros env po; apply processOrderCreated_ignores_record].
  - revert w. induction times as [|t times IH]; intros w; [cbn; lia |].
    cbn [map]. rewrite startOrderConsumer_cons, IH.
    destruct (calm_delivery unmarshalOrder t w msg event Hdec) as (-> & _ & _).
    cbn [length]. lia.
  - revert w. induction times as [|t times IH]; intros w; [done |].
    cbn [map length]. rewrite startOrderConsumer_cons, IH, Nat.iter_succ_r.
    by destruct (calm_delivery unmarshalOrder t w msg event Hdec) as (_ & -> & _).
  - intros deliveries. apply startOrderConsumer_processed_orders.
Qed.

Lemma C1_redelivery_is_processed_again_witness :
  let w' := fst (startOrderConsumer Sample.unmarshalOrder
                   (map (fun t => (calm t, Sample.order_o1)) [1; 2; 3]) (Sample.shelf 2)) in
  outcomes_for "o1" w' = 3 /\ stock (inventory w') "A" = 0.
Proof.
  destruct (C1_redelivery_is_processed_again Sample.unmarshalOrder Sample.order_o1
              (mkOrderMessage "o1" "A" 1 "u1" "2024-05-01T10:00:00Z") [1; 2; 3]
              (Sample.shelf 2) eq_refl) as (Hout & Hinv & _).
  cbn zeta. split.
  - etrans; [exact Hout | reflexivity].
  - etrans; [exact (f_equal (fun inv => stock inv "A") Hinv) | reflexivity].
Defined.

(** C1 as stated fails.  Item A holds 2 and order o1 is already in the
    Processed-Order Record; the order-created event of o1 (1 of A) is
    delivered twice.  Each delivery is committed, each deducts stock and
    each publishes an outcome: two outcome events for o1, stock 2, 1, 0. *)
Lemma C1_counterexample :
  let w0 := mkWorld {[ "A" := mkRow 2 0 ]} (Some {[ "o1" := 0 ]}) [] in
  let first := orderConsumerTurn Sample.unmarshalOrder (calm 1) w0 Sample.order_o1 in
  let second := orderConsumerTurn Sample.unmarshalOrder (calm 2) (fst first) Sample.order_o1 in
  snd first = OffsetCommitted /\ snd second = OffsetCommitted /\
  outcomes_for "o1" (fst first) = 1 /\ outcomes_for "o1" (fst second) = 2 /\
  stock (inventory (fst first)) "A" = 1 /\ stock (inventory (fst second)) "A" = 0.
Proof. vm_compute. by split_and!. Qed.

(** C2.  For every sequence of order-created messages the consumer
    processes, in any environment: the stock of an item that starts
    non-negative is non-negative after every prefix of the sequence; each
    message leaves the table unchanged or applies the full decrement of its
    event; and when storage answers, the decrement applies exactly when the
    stored quantity covers the request, and the table is unchanged
    otherwise. *)
Theorem C2_decrement_all_or_nothing :
  forall (unmarshalOrder : string -> error + OrderMessage)
         (deliveries : list (Faults * Message)) (w : World) (album : string),
    0 <= stock (inventory w) album ->
    (forall k : nat,
        0 <= stock (inventory (fst (startOrderConsumer unmarshalOrder
                                      (take k deliveries) w))) album)
    /\ (forall env w0 msg,
          inventory (fst (processOrderCreated unmarshalOrder env w0 msg)) = inventory w0 \/
          exists event,
            unmarshalOrder (m_Value msg) = inr event /\
            decrement_of event (inventory w0)
              (inventory (fst (processOrderCreated unmarshalOrder env w0 msg))))
    /\ (forall env w0 msg event r,
          unmarshalOrder (m_Value msg) = inr event ->
          storage_answers env ->
          inventory w0 !! om_AlbumID event = Some r ->
          (om_Quantity event <= quantity_available r ->
           inventory (fst (processOrderCreated unmarshalOrder env w0 msg)) =
             <[om_AlbumID event :=
                 mkRow (quantity_available r - om_Quantity event) (last_updated r)]>
               (inventory w0))
          /\ (quantity_available r < om_Quantity event ->
              inventory (fst (processOrderCreated unmarshalOrder env w0 msg)) =
                inventory w0)).
Proof.
  intros unmarshalOrder deliveries w album Hnn. split_and!.
  - intros k. by apply startOrderConsumer_nonneg.
  - intros env w0 msg. apply processOrderCreated_inventory.
  - intros env w0 msg event r Hdec Hans Hrow.
    rewrite (processOrderCreated_answers _ _ _ _ event Hdec Hans). cbn zeta. split.
    + intros Hle. by rewrite (update_if_sufficient_hit _ _ _ r Hrow Hle).
    + intros Hlt. by rewrite (update_if_sufficient_short _ _ _ r Hrow Hlt).
Qed.

Lemma C2_decrement_all_or_nothing_witness :
  0 <= stock (inventory (Sample.shelf 1)) "A" /\
  0 <= stock (inventory (fst (startOrderConsumer Sample.unmarshalOrder
                                (take 2 [(calm 1, Sample.order_o1); (calm 2, Sample.order_o1)])
                                (Sample.shelf 1)))) "A".
Proof.
  assert (0 <= stock (inventory (Sample.shelf 1)) "A") as Hnn by (vm_compute; discriminate).
  split; [exact Hnn |].
  exact (proj1 (C2_decrement_all_or_nothing Sample.unmarshalOrder
                  [(calm 1, Sample.order_o1); (calm 2, Sample.order_o1)]
                  (Sample.shelf 1) "A" Hnn) 2%nat).
Defined.

(** C4.  When storage answers and the conditional update affects no row
    (the item has no row, or its row holds less than requested), the handler
    hands exactly one message to the order-failed writer, a failure event
    for the order with reason INSUFFICIENT_INVENTORY in both cases, leaves
    both tables as they are (so no row is created), and returns nil, so the
    loop marks the message as consumed. *)
Theorem C4_zero_rows_is_insufficient_inventory :
  forall (unmarshalOrder : string -> error + OrderMessage) (env : Faults) (w : World)
         (msg : Message) (event : OrderMessage),
    unmarshalOrder (m_Value msg) = inr event ->
    storage_answers env ->
    (inventory w !! om_AlbumID event = None \/
     exists r, inventory w !! om_AlbumID event = Some r /\
               quantity_available r < om_Quantity event) ->
    snd (update_if_sufficient (om_Quantity event) (om_AlbumID event) (inventory w)) = 0
    /\ processOrderCreated unmarshalOrder env w msg =
         (mkWorld (inventory w) (processed_orders w)
            (writes w ++
             [mkWriteCall orderFailedTopic
                (mkOutMessage (om_OrderID event)
                   (Failed (mkOrderFailedEvent (om_OrderID event) "INSUFFICIENT_INVENTORY"
                              (now env)))
                   [])
                (f_write env)]),
          None)
    /\ dom (inventory (fst (processOrderCreated unmarshalOrder env w msg))) = dom (inventory w)
    /\ marked_consumed (snd (orderConsumerTurn unmarshalOrder env w msg)) = true.
Proof.
  intros unmarshalOrder env w msg event Hdec Hans Hcause.
  assert (update_if_sufficient (om_Quantity event) (om_AlbumID event) (inventory w)
          = (inventory w, 0)) as Hupd.
  { destruct Hcause as [Habs | (r & Hrow & Hlt)].
    - by apply update_if_sufficient_absent.
    - by apply (update_if_sufficient_short _ _ _ r). }
  assert (processOrderCreated unmarshalOrder env w msg =
          (add_write (failure_write env (om_OrderID event) "INSUFFICIENT_INVENTORY") w, None))
    as Hres.
  { rewrite (processOrderCreated_answers _ _ _ _ event Hdec Hans). cbn zeta.
    by rewrite Hupd. }
  split_and!.
  - by rewrite Hupd.
  - by rewrite Hres.
  - by rewrite Hres.
  - rewrite orderConsumerTurn_marked. by rewrite Hres.
Qed.

Lemma C4_zero_rows_is_insufficient_inventory_witness :
  writes (fst (processOrderCreated Sample.unmarshalOrder (calm 4) (Sample.shelf 3)
                 Sample.order_o2)) =
    [mkWriteCall "order-failed"
       (mkOutMessage "o2" (Failed (mkOrderFailedEvent "o2" "INSUFFICIENT_INVENTORY" 4)) [])
       None]
  /\ inventory (fst (processOrderCreated Sample.unmarshalOrder (calm 4) (Sample.shelf 3)
                       Sample.order_o2)) !! "B" = None.
Proof.
  destruct (C4_zero_rows_is_insufficient_inventory Sample.unmarshalOrder (calm 4)
              (Sample.shelf 3) Sample.order_o2
              (mkOrderMessage "o2" "B" 1 "u2" "2024-05-01T10:00:01Z")
              eq_refl (calm_answers 4) (or_introl eq_refl)) as (_ & Hres & _ & _).
  split.
  - exact (f_equal (fun p => writes (fst p)) Hres).
  - exact (f_equal (fun p => inventory (fst p) !! "B") Hres).
Defined.

(** What the handler and the loop do of the retry policy.
    [processOrderCreated] returns an error exactly when the payload decodes
    and a storage call it reaches fails: beginning the transaction, the
    update, reading the affected-row count, or the commit.  In each of these
    cases the tables and the log of writes are as before (the transaction is
    rolled back, nothing is published) and the loop does not call
    [CommitMessages]; in every other case it does. *)
Lemma only_storage_failures_return_an_error :
  forall (unmarshalOrder : string -> error + OrderMessage) (env : Faults) (w : World)
         (msg : Message),
    (is_Some (snd (processOrderCreated unmarshalOrder env w msg)) <->
     exists event, unmarshalOrder (m_Value msg) = inr event /\
                   storage_failure env (inventory w) event)
    /\ (is_Some (snd (processOrderCreated unmarshalOrder env w msg)) ->
        orderConsumerTurn unmarshalOrder env w msg =
          (w, match snd (processOrderCreated unmarshalOrder env w msg) with
              | Some err => ProcessingFailed err
              | None => OffsetCommitted
              end)
        /\ marked_consumed (snd (orderConsumerTurn unmarshalOrder env w msg)) = false)
    /\ (snd (processOrderCreated unmarshalOrder env w msg) = None ->
        marked_consumed (snd (orderConsumerTurn unmarshalOrder env w msg)) = true).
Proof.
  intros unmarshalOrder env w msg.
  destruct (processOrderCreated_error unmarshalOrder env w msg) as [Hiff Hsame].
  split_and!; [exact Hiff | |].
  - intros Herr. specialize (Hsame Herr). rewrite orderConsumerTurn_marked.
    unfold orderConsumerTurn.
    destruct (processOrderCreated unmarshalOrder env w msg) as [w' [e|]]; cbn in *.
    + by subst.
    + by destruct Herr.
  - intros Hok. rewrite orderConsumerTurn_marked. by rewrite Hok.
Qed.

(** ** What becomes of a message whose handling failed *)

Section GroupRuns.

Variable unmarshalOrder : string -> error + OrderMessage.

(** Along a run of the loop the committed offset and the position only
    grow, the committed offset stays behind the position, and every message
    handled, whatever its turn did, has an offset from the position at the
    start up to the committed offset at the end; the offsets handled
    increase. *)
Lemma startOrderConsumer_offsets turns :
  forall r w r' w' handled,
    (Group.committed r <= Group.position r)%nat ->
    Group.startOrderConsumer unmarshalOrder turns r w = (r', w', handled) ->
    (Group.committed r <= Group.committed r')%nat
    /\ (Group.committed r' <= Group.position r')%nat
    /\ (Group.position r <= Group.position r')%nat
    /\ Forall (fun h => Z.of_nat (Group.position r) <= m_Offset (fst h)
                       < Z.of_nat (Group.committed r')) handled
    /\ StronglySorted Z.lt ((fun h => m_Offset (fst h)) <$> handled).
Proof.
  induction turns as [|[rf env] rest IH]; intros r w r' w' handled Hle; cbn.
  { intros [= <- <- <-]. split_and!; [done | done | done | constructor | constructor]. }
  unfold Group.ReadMessage.
  destruct (Group.rf_fetch rf) as [e|].
  { intros Hrun. by apply (IH _ _ _ _ _ Hle) in Hrun. }
  destruct (Group.records r !! Group.position r) as [m|] eqn:Hm.
  2: { intros [= <- <- <-]. split_and!; [done | done | done | constructor | constructor]. }
  destruct (Group.rf_commit rf) as [e|].
  { intros Hrun. apply IH in Hrun; [| cbn; lia]. cbn in Hrun.
    destruct Hrun as (H1 & H2 & H3 & H4 & H5). split_and!; [lia | done | lia | | done].
    eapply Forall_impl; [exact H4 |]. intros h. cbn. lia. }
  destruct (orderConsumerTurn unmarshalOrder env w _) as [w1 o].
  set (r2 := match o with
             | OffsetCommitted => _
             | ProcessingFailed _ | CommitFailed _ => _
             end).
  assert (Group.position r2 = S (Group.position r)
          /\ Group.committed r2 = S (Group.position r)) as [Hpos Hcom].
  { subst r2. destruct o; cbn; split; try done; lia. }
  destruct (Group.startOrderConsumer unmarshalOrder rest r2 w1) as [[r3 w3] handled'] eqn:Hrun.
  intros [= <- <- <-].
  apply IH in Hrun as (H1 & H2 & H3 & H4 & H5); [| lia].
  rewrite Hpos in H3, H4. rewrite Hcom in H1.
  split_and!; [lia | done | lia | |].
  - constructor.
    + cbn. lia.
    + eapply Forall_impl; [exact H4 |]. intros h. cbn. lia.
  - cbn. constructor; [done |].
    apply Forall_fmap. eapply Forall_impl; [exact H4 |]. intros h. cbn. lia.
Qed.

End GroupRuns.

(** C8 (the code against the claim).  Whatever [processOrderCreated]
    returns for a message, the reader has committed its offset before the
    handler ran: in every run of the loop the messages handled come in
    increasing offsets, so none is handed to the handler twice, and each of
    them, also one whose turn ended in a failure, lies before the committed
    offset at the end, so a reader that joins the group afterwards handles
    only later messages.  At the failing input, storage is unreachable
    while o1 is handled: the handler returns its error once, o2 is handled
    next, no outcome event for o1 is ever written, the committed offset ends
    past both messages, and the loop started again on a rejoined reader
    handles nothing. *)
Theorem C8_failed_message_is_not_redelivered :
  (forall (unmarshalOrder : string -> error + OrderMessage)
          (turns again : list (Group.ReadFaults * Faults)) (r : Group.Reader) (w : World),
      (Group.committed r <= Group.position r)%nat ->
      let run := Group.startOrderConsumer unmarshalOrder turns r w in
      let rerun :=
        Group.startOrderConsumer unmarshalOrder again (Group.rejoin (fst (fst run)))
          (snd (fst run)) in
      StronglySorted Z.lt ((fun h => m_Offset (fst h)) <$> snd run)
      /\ Forall (fun h => m_Offset (fst h) < Z.of_nat (Group.committed (fst (fst run))))
           (snd run)
      /\ Forall (fun later =>
                   Forall (fun h => m_Offset (fst h) < m_Offset (fst later)) (snd run))
           (snd rerun))
  /\ (let run :=
        Group.startOrderConsumer Sample.unmarshalOrder SampleOutage.turns
          (Group.mkReader SampleOutage.partition 0 0) SampleOutage.stocked in
      snd run =
        [ (mkMessage 0 0 "o1" "order o1: 1 of A" [],
           ProcessingFailed
             (ErrWrap "failed to begin transaction"
                (ErrText "dial tcp: connection refused")));
          (mkMessage 0 1 "o2" "order o2: 1 of B" [], OffsetCommitted) ]
      /\ Group.committed (fst (fst run)) = 2%nat
      /\ inventory (snd (fst run)) !! "A" = Some (mkRow 5 0)
      /\ outcomes_for "o1" (snd (fst run)) = 0
      /\ outcomes_for "o2" (snd (fst run)) = 1
      /\ Group.startOrderConsumer Sample.unmarshalOrder
           [(Group.quiet, calm 4); (Group.quiet, calm 5)]
           (Group.rejoin (fst (fst run))) (snd (fst run))
         = (Group.rejoin (fst (fst run)), snd (fst run), [])).
Proof.
  split.
  - intros unmarshalOrder turns again r w Hle. cbn zeta.
    destruct (Group.startOrderConsumer unmarshalOrder turns r w) as [[r' w'] handled] eqn:Hrun.
    cbn [fst snd].
    destruct (startOrderConsumer_offsets unmarshalOrder turns r w r' w' handled Hle Hrun)
      as (_ & _ & _ & Hin & Hsorted).
    destruct (Group.startOrderConsumer unmarshalOrder again (Group.rejoin r') w')
      as [[r'' w''] handled'] eqn:Hrerun.
    cbn [fst snd].
    apply startOrderConsumer_offsets in Hrerun as (_ & _ & _ & Hlater & _); [| done].
    cbn [Group.rejoin Group.position] in Hlater.
    split_and!; [exact Hsorted | |].
    + eapply Forall_impl; [exact Hin |]. intros h. cbn. lia.
    + eapply Forall_impl; [exact Hlater |]. intros later [Hlow _].
      eapply Forall_impl; [exact Hin |]. intros h. cbn. lia.
  - vm_compute. by split_and!.
Qed.

(** C7 (as amended).  The headers of the consumed message do not reach the
    produced one: every message [processOrderCreated] hands to a writer has
    an empty header list, and the handler's result is the same whatever
    headers the consumed message carries. *)
Theorem C7_outcome_messages_carry_no_headers :
  forall (unmarshalOrder : string -> error + OrderMessage) (env : Faults) (w : World)
         (msg : Message),
    (exists new,
        writes (fst (processOrderCreated unmarshalOrder env w msg)) = (writes w ++ new)%list /\
        Forall (fun c => out_Headers (wc_msg c) = []) new)
    /\ (forall headers,
          processOrderCreated unmarshalOrder env w
            (mkMessage (m_Partition msg) (m_Offset msg) (m_Key msg) (m_Value msg) headers) =
          processOrderCreated unmarshalOrder env w msg).
Proof.
  intros unmarshalOrder env w msg. split; [| done].
  unfold processOrderCreated.
  destruct (unmarshalOrder (m_Value msg)) as [err|event];
    [exists []; by rewrite app_nil_r |].
  destruct (f_begin env); [exists []; by rewrite app_nil_r |].
  destruct (f_exec env); [exists []; by rewrite app_nil_r |].
  destruct (update_if_sufficient _ _ _) as [inv' rows].
  destruct (f_rows env); [exists []; by rewrite app_nil_r |].
  destruct (rows =? 1).
  - destruct (f_commit env); [exists []; by rewrite app_nil_r |].
    eexists. split; [reflexivity |]. by repeat constructor.
  - eexists. split; [reflexivity |]. by repeat constructor.
Qed.

(** C7 as stated fails.  The order-created message of o1 arrives with a
    traceparent header; the order-succeeded message produced for it has no
    header at all. *)
Lemma C7_counterexample :
  m_Headers Sample.order_o1 = [Sample.traceparent] /\
  map (fun c => (wc_topic c, out_Headers (wc_msg c)))
      (writes (fst (processOrderCreated Sample.unmarshalOrder (calm 1) (Sample.shelf 2)
                      Sample.order_o1)))
    = [("order-succeeded", [])].
Proof. vm_compute. by split. Qed.

(** C6 (as amended).  An undecodable payload changes no state in either
    consumer.  On the order-created topic [processOrderCreated] returns nil
    and the loop marks the message as consumed.  On the album-created topic
    [processAlbumCreatedEvent] returns the error "failed to parse
    AlbumCreatedEvent" and the loop does not mark the message as consumed. *)
Theorem C6_undecodable_payloads :
  forall (unmarshalOrder : string -> error + OrderMessage)
         (unmarshalAlbum : string -> error + AlbumCreatedEvent)
         (env : Faults) (w : World) (orderMsg albumMsg : Message) (errO errA : error),
    unmarshalOrder (m_Value orderMsg) = inl errO ->
    unmarshalAlbum (m_Value albumMsg) = inl errA ->
    (processOrderCreated unmarshalOrder env w orderMsg = (w, None)
     /\ fst (orderConsumerTurn unmarshalOrder env w orderMsg) = w
     /\ marked_consumed (snd (orderConsumerTurn unmarshalOrder env w orderMsg)) = true)
    /\ (processAlbumCreatedEvent unmarshalAlbum env w albumMsg =
          (w, Some (ErrWrap "failed to parse AlbumCreatedEvent" errA))
        /\ albumConsumerTurn unmarshalAlbum env w albumMsg =
             (w, ProcessingFailed (ErrWrap "failed to parse AlbumCreatedEvent" errA))
        /\ marked_consumed (snd (albumConsumerTurn unmarshalAlbum env w albumMsg)) = false).
Proof.
  intros unmarshalOrder unmarshalAlbum env w orderMsg albumMsg errO errA HO HA.
  pose proof (processOrderCreated_undecodable unmarshalOrder env w orderMsg errO HO) as Hres.
  assert (processAlbumCreatedEvent unmarshalAlbum env w albumMsg =
          (w, Some (ErrWrap "failed to parse AlbumCreatedEvent" errA))) as Hal.
  { unfold processAlbumCreatedEvent. by rewrite HA. }
  split; split_and!.
  - exact Hres.
  - rewrite orderConsumerTurn_world. by rewrite Hres.
  - rewrite orderConsumerTurn_marked. by rewrite Hres.
  - exact Hal.
  - unfold albumConsumerTurn. by rewrite Hal.
  - unfold albumConsumerTurn. by rewrite Hal.
Qed.

Lemma C6_undecodable_payloads_witness :
  orderConsumerTurn Sample.unmarshalOrder (calm 1) (Sample.shelf 2) Sample.garbage =
    (Sample.shelf 2, OffsetCommitted)
  /\ marked_consumed
       (snd (albumConsumerTurn Sample.unmarshalAlbum (calm 1) (Sample.shelf 2)
               Sample.garbage)) = false.
Proof.
  destruct (C6_undecodable_payloads Sample.unmarshalOrder Sample.unmarshalAlbum (calm 1)
              (Sample.shelf 2) Sample.garbage Sample.garbage _ _ eq_refl eq_refl)
    as [(Hres & _ & _) (_ & _ & Hmark)].
  split; [| exact Hmark].
  unfold orderConsumerTurn. rewrite Hres. reflexivity.
Defined.

(** C6 as stated fails for the album-created consumer: on a payload that is
    not JSON its handler returns an error, so the turn of the loop ends
    without the call of CommitMessages. *)
Lemma C6_counterexample :
  albumConsumerTurn Sample.unmarshalAlbum (calm 1) (Sample.shelf 2) Sample.garbage =
    (Sample.shelf 2,
     ProcessingFailed
       (ErrWrap "failed to parse AlbumCreatedEvent"
          (ErrText "invalid character 't' looking for beginning of value")))
  /\ marked_consumed
       (snd (albumConsumerTurn Sample.unmarshalAlbum (calm 1) (Sample.shelf 2)
               Sample.garbage)) = false.
Proof. by split. Qed.

(** C5.  A decoded album-created event whose insert is executed: when the
    item has no row, one is inserted with the declared initial quantity if
    it is present and non-negative and with zero otherwise; when the item
    has a row, the table is left as it is.  After that, processing the same
    event again, any number of times and in any environment, leaves the
    table unchanged. *)
Theorem C5_bootstrap_inserts_if_absent :
  forall (unmarshalAlbum : string -> error + AlbumCreatedEvent) (env : Faults) (w : World)
         (msg : Message) (event : AlbumCreatedEvent),
    unmarshalAlbum (m_Value msg) = inr event ->
    f_exec env = None ->
    let w' := fst (processAlbumCreatedEvent unmarshalAlbum env w msg) in
    (inventory w !! ac_AlbumID event = None ->
     exists q,
       inventory w' = <[ac_AlbumID event := mkRow q (now env)]> (inventory w)
       /\ (forall d, ac_InitialQuantity event = Some d -> 0 <= d -> q = d)
       /\ (forall d, ac_InitialQuantity event = Some d -> d < 0 -> q = 0)
       /\ (ac_InitialQuantity event = None -> q = 0))
    /\ (is_Some (inventory w !! ac_AlbumID event) -> inventory w' = inventory w)
    /\ (forall envs : list Faults,
          inventory (fst (startAlbumCreatedConsumer unmarshalAlbum
                            (map (fun e => (e, msg)) envs) w')) = inventory w')
    /\ snd (processAlbumCreatedEvent unmarshalAlbum env w msg) = None.
Proof.
  intros unmarshalAlbum env w msg event Hdec Hexec. cbn zeta.
  assert (is_Some (inventory (fst (processAlbumCreatedEvent unmarshalAlbum env w msg))
                   !! ac_AlbumID event)) as Hhas.
  { unfold processAlbumCreatedEvent. rewrite Hdec, Hexec. cbn.
    unfold insert_on_conflict_do_nothing.
    destruct (inventory w !! ac_AlbumID event) as [r|] eqn:Hrow.
    - rewrite Hrow. by eauto.
    - rewrite lookup_insert_eq. by eauto. }
  split_and!.
  - intros Habs. unfold processAlbumCreatedEvent. rewrite Hdec, Hexec. cbn.
    unfold insert_on_conflict_do_nothing. rewrite Habs.
    eexists. split; [reflexivity |]. split_and!.
    + intros d -> Hd. destruct (Z.leb_spec 0 d); [done | lia].
    + intros d -> Hd. destruct (Z.leb_spec 0 d); [lia | done].
    + by intros ->.
  - intros Hrow. by apply (processAlbumCreatedEvent_existing _ _ _ _ event).
  - intros envs. by apply (redelivered_album_existing _ _ _ _ event).
  - unfold processAlbumCreatedEvent. by rewrite Hdec, Hexec.
Qed.

Lemma C5_bootstrap_inserts_if_absent_witness :
  inventory (fst (processAlbumCreatedEvent Sample.unmarshalAlbum (calm 9)
                    (mkWorld ∅ None []) Sample.album_A)) !! "A" = Some (mkRow 5 9)
  /\ inventory (fst (processAlbumCreatedEvent Sample.unmarshalAlbum (calm 9)
                       (Sample.shelf 2) Sample.album_A)) = inventory (Sample.shelf 2).
Proof.
  split.
  - destruct (C5_bootstrap_inserts_if_absent Sample.unmarshalAlbum (calm 9)
                (mkWorld ∅ None []) Sample.album_A
                (mkAlbumCreatedEvent "A" "Blue" "Ann" 0 (Some 5)) eq_refl eq_refl)
      as (Hnew & _).
    destruct (Hnew eq_refl) as (q & Hinv & Hq & _).
    etrans; [exact (f_equal (fun inv => inv !! "A") Hinv) |].
    rewrite (Hq 5 eq_refl ltac:(lia)). reflexivity.
  - destruct (C5_bootstrap_inserts_if_absent Sample.unmarshalAlbum (calm 9)
                (Sample.shelf 2) Sample.album_A
                (mkAlbumCreatedEvent "A" "Blue" "Ann" 0 (Some 5)) eq_refl eq_refl)
      as (_ & Hold & _).
    apply Hold. exists (mkRow 2 0). reflexivity.
Defined.

(** C10.  For an album identifier without a row, when the query itself
    does not fail, [getInventory] answers 200 with an inventory object
    holding that identifier, quantity zero and the current time; it does not
    answer 404, and the tables are as before. *)
Theorem C10_missing_album_reads_as_zero :
  forall (env : Faults) (w : World) (albumID : string),
    inventory w !! albumID = None ->
    f_query env = None ->
    getInventory env w albumID =
      (w, mkResponse 200 (InventoryBody (mkInventory albumID 0 (now env))))
    /\ (r_status (snd (getInventory env w albumID)) =? StatusNotFound) = false
    /\ inventory (fst (getInventory env w albumID)) !! albumID = None.
Proof.
  intros env w albumID Hrow Hq.
  assert (getInventory env w albumID =
          (w, mkResponse 200 (InventoryBody (mkInventory albumID 0 (now env))))) as Hres.
  { unfold getInventory, select_row. rewrite Hq, Hrow.
    by destruct (decide (sqlErrNoRows = sqlErrNoRows)). }
  rewrite Hres. by split_and!.
Qed.

Lemma C10_missing_album_reads_as_zero_witness :
  getInventory (calm 12) (Sample.shelf 2) "nonexistent-album" =
    (Sample.shelf 2,
     mkResponse 200 (InventoryBody (mkInventory "nonexistent-album" 0 12))).
Proof.
  exact (proj1 (C10_missing_album_reads_as_zero (calm 12) (Sample.shelf 2)
                  "nonexistent-album" eq_refl eq_refl)).
Defined.

(** ** Sums over lists of handlers *)

Lemma total_insert {A : Type} (f : A -> Z) (l : list A) (i : nat) (x y : A) :
  l !! i = Some x -> total f (<[i := y]> l) = total f l - f x + f y.
Proof.
  revert i. induction l as [|a l IH]; intros [|i] Hi; try done.
  - cbn in Hi. injection Hi as ->. cbn. lia.
  - cbn in Hi. change (<[S i := y]> (a :: l)) with (a :: <[i := y]> l).
    cbn [total]. rewrite (IH i Hi). lia.
Qed.

Lemma total_nonneg {A : Type} (f : A -> Z) (l : list A) :
  (forall x, 0 <= f x) -> 0 <= total f l.
Proof. intros Hf. induction l as [|a l IH]; cbn; [done |]. specialize (Hf a). lia. Qed.

Lemma total_ge_one {A : Type} (f : A -> Z) (l : list A) (i : nat) (x : A) :
  Forall (fun a => 0 <= f a) l -> l !! i = Some x -> f x <= total f l.
Proof.
  intros Hf. revert i. induction Hf as [|a l Ha Hl IH]; intros [|i] Hi; try done.
  - cbn in Hi. injection Hi as ->. cbn.
    assert (0 <= total f l); [| lia].
    clear -Hl. induction Hl as [|b l Hb _ IHl]; cbn; [done | lia].
  - cbn in Hi. cbn. specialize (IH i Hi). lia.
Qed.

Lemma total_ge_two {A : Type} (f : A -> Z) (l : list A) (i j : nat) (x y : A) :
  Forall (fun a => 0 <= f a) l -> i <> j -> l !! i = Some x -> l !! j = Some y ->
  f x + f y <= total f l.
Proof.
  intros Hf. revert i j. induction Hf as [|a l Ha Hl IH]; intros [|i] [|j] Hne Hi Hj;
    try done; cbn in Hi, Hj; cbn.
  - injection Hi as ->. pose proof (total_ge_one f l j y Hl Hj). lia.
  - injection Hj as ->. pose proof (total_ge_one f l i x Hl Hi). lia.
  - assert (i <> j) as Hne' by congruence. specialize (IH i j Hne' Hi Hj). lia.
Qed.

Lemma total_zero {A : Type} (f : A -> Z) (l : list A) :
  Forall (fun a => f a = 0) l -> total f l = 0.
Proof. induction 1 as [|a l Ha _ IH]; cbn; [done | lia]. Qed.

Lemma indicator_nonneg b : 0 <= indicator b.
Proof. by destruct b. Qed.

(** ** Moves of concurrent handlers *)

Module ConcurrentFacts.
Import Concurrent.

Lemma step_move i env c c' :
  step i env c = Some c' ->
  exists h p' w',
    c_handlers c !! i = Some h /\
    move (c_handlers c) env (h_event h) (c_world c) (h_pc h) w' p' /\
    c' = mkConfig w' (<[i := mkHandler (h_event h) p']> (c_handlers c)).
Proof.
  unfold step. destruct (c_handlers c !! i) as [h|] eqn:Hi; [| done].
  intros Hstep. exists h.
  destruct (h_pc h) as [|row| | | | |e] eqn:Hpc; try done.
  - destruct (f_begin env) as [eb|] eqn:Hb.
    { injection Hstep as <-. do 2 eexists. split_and!; [done | | done].
      apply move_abort. intros (H & _). congruence. }
    destruct (f_exec env) as [ee|] eqn:He.
    { injection Hstep as <-. do 2 eexists. split_and!; [done | | done].
      apply move_abort. intros (_ & H & _). congruence. }
    destruct (inventory (c_world c) !! om_AlbumID (h_event h)) as [r|] eqn:Hrow.
    + destruct (Z.leb_spec (om_Quantity (h_event h)) (quantity_available r)) as [Hle|Hgt].
      * destruct (row_locked _ _) eqn:Hlock; [done |].
        destruct (f_rows env) as [er|] eqn:Hr.
        { injection Hstep as <-. do 2 eexists. split_and!; [done | | done].
          apply move_abort. intros (_ & _ & H & _). congruence. }
        injection Hstep as <-. do 2 eexists. split_and!; [done | | done].
        by apply move_lock.
      * destruct (f_rows env) as [er|] eqn:Hr.
        { injection Hstep as <-. do 2 eexists. split_and!; [done | | done].
          apply move_abort. intros (_ & _ & H & _). congruence. }
        injection Hstep as <-. do 2 eexists. split_and!; [done | | done].
        apply move_reject. right. exists r. split; [done | lia].
    + destruct (f_rows env) as [er|] eqn:Hr.
      { injection Hstep as <-. do 2 eexists. split_and!; [done | | done].
        apply move_abort. intros (_ & _ & H & _). congruence. }
      injection Hstep as <-. do 2 eexists. split_and!; [done | | done].
      apply move_reject. by left.
  - destruct (f_commit env) as [ec|] eqn:Hc.
    { injection Hstep as <-. do 2 eexists. split_and!; [done | | done].
      apply move_rollback. intros (_ & _ & _ & H). congruence. }
    injection Hstep as <-. do 2 eexists. split_and!; [done | | done].
    apply move_commit.
  - injection Hstep as <-. do 2 eexists. split_and!; [done | | done].
    apply move_success.
  - injection Hstep as <-. do 2 eexists. split_and!; [done | | done].
    apply move_failure.
Qed.

End ConcurrentFacts.

(** ** What every run keeps true *)

Module ConcurrentInvariant.
Import Concurrent ConcurrentFacts.

Lemma lookup_insert_cases (hs : list handler) i h' j h2 :
  <[i := h']> hs !! j = Some h2 ->
  (j = i /\ h2 = h') \/ (j <> i /\ hs !! j = Some h2).
Proof.
  intros Hj. destruct (decide (j = i)) as [->|Hne].
  - left. split; [done |].
    assert (i < length hs)%nat as Hlt.
    { apply lookup_lt_Some in Hj. by rewrite length_insert in Hj. }
    rewrite list_lookup_insert_eq in Hj by done. congruence.
  - right. split; [done |]. by rewrite list_lookup_insert_ne in Hj.
Qed.

Lemma lock_indicator_nonneg album (hs : list handler) :
  Forall (fun h => 0 <= indicator (holds_lock album h)) hs.
Proof. apply Forall_forall. intros h _. apply indicator_nonneg. Qed.

(** A free row has no holder. *)
Lemma row_unlocked_count album hs :
  row_locked album hs = false -> lock_count album hs = 0.
Proof.
  unfold row_locked, lock_count. induction hs as [|h hs IH]; [done |].
  cbn. intros [Hh Hrest]%orb_false_iff. rewrite Hh, (IH Hrest). done.
Qed.

(** Two handlers cannot hold the lock of one row. *)
Lemma one_holder album hs i j hi hj :
  lock_count album hs <= 1 -> i <> j ->
  hs !! i = Some hi -> hs !! j = Some hj ->
  holds_lock album hi = true -> holds_lock album hj = true -> False.
Proof.
  intros Hl Hne Hi Hj Hhi Hhj.
  pose proof (total_ge_two _ hs i j hi hj (lock_indicator_nonneg album hs) Hne Hi Hj) as H.
  cbn beta in H. rewrite Hhi, Hhj in H. unfold lock_count in Hl. cbn in H. lia.
Qed.

Ltac other_handlers Hp :=
  let j := fresh "j" in
  let h2 := fresh "h2" in
  let Hj := fresh "Hj" in
  let Hpc2 := fresh "Hpc2" in
  intros j h2 ? Hj Hpc2 ?;
  apply lookup_insert_cases in Hj as [[-> ->] | [? Hj]];
  [cbn in Hpc2; discriminate | by eapply Hp].

Lemma move_invariant album inv0 env c i h w' p' :
  invariant album inv0 c ->
  c_handlers c !! i = Some h ->
  move (c_handlers c) env (h_event h) (c_world c) (h_pc h) w' p' ->
  invariant album inv0 (mkConfig w' (<[i := mkHandler (h_event h) p']> (c_handlers c))).
Proof.
  intros [Hs Hn Hl Hp] Hi Hm.
  destruct c as [w hs]. destruct h as [event p].
  cbn [c_world c_handlers h_event h_pc] in *.
  assert (forall p'',
    success_quantity album (<[i := mkHandler event p'']> hs) =
    success_quantity album hs
    - (if decremented (mkHandler event p) && String.eqb (om_AlbumID event) album
       then om_Quantity event else 0)
    + (if decremented (mkHandler event p'') && String.eqb (om_AlbumID event) album
       then om_Quantity event else 0)) as Hsq.
  { intros p''. unfold success_quantity. by rewrite (total_insert _ _ _ _ _ Hi). }
  assert (forall p'',
    lock_count album (<[i := mkHandler event p'']> hs) =
    lock_count album hs
    - indicator (holds_lock album (mkHandler event p))
    + indicator (holds_lock album (mkHandler event p''))) as Hlc.
  { intros p''. unfold lock_count. by rewrite (total_insert _ _ _ _ _ Hi). }
  inversion Hm; subst; constructor; cbn [c_world c_handlers];
    rewrite ?Hsq, ?Hlc; cbn [decremented holds_lock h_pc h_event andb indicator].
  - lia.
  - done.
  - lia.
  - other_handlers Hp.
  - lia.
  - done.
  - destruct (String.eqb_spec (om_AlbumID event) album) as [Heq|Hne]; cbn; [| lia].
    subst album.
    match goal with
    | Hfree : row_locked _ _ = false |- _ => rewrite (row_unlocked_count _ _ Hfree)
    end. lia.
  - intros j h2 row2 Hj Hpc2 Ha2.
    apply lookup_insert_cases in Hj as [[-> ->] | [? Hj]]; [| by eapply Hp].
    cbn in Hpc2, Ha2. injection Hpc2 as <-. subst album. cbn. by exists r.
  - lia.
  - done.
  - lia.
  - other_handlers Hp.
  - lia.
  - done.
  - pose proof (indicator_nonneg (om_AlbumID event =? album)%string). lia.
  - other_handlers Hp.
  - destruct (String.eqb_spec (om_AlbumID event) album) as [Heq|Hne]; cbn.
    + destruct (Hp i _ row Hi eq_refl Heq) as (r & Hrow & Hle & ->). cbn in *.
      subst album. rewrite stock_insert_eq. cbn.
      assert (stock (inventory w) (om_AlbumID event) = quantity_available r) as Hcur
        by (unfold stock; by rewrite Hrow).
      lia.
    + rewrite stock_insert_ne by done. lia.
  - destruct (String.eqb_spec (om_AlbumID event) album) as [Heq|Hne]; cbn.
    + destruct (Hp i _ row Hi eq_refl Heq) as (r & Hrow & Hle & ->). cbn in *.
      subst album. rewrite stock_insert_eq. cbn. lia.
    + by rewrite stock_insert_ne.
  - pose proof (indicator_nonneg (om_AlbumID event =? album)%string). lia.
  - intros j h2 row2 Hj Hpc2 Ha2.
    apply lookup_insert_cases in Hj as [[-> ->] | [Hji Hj]]; [cbn in Hpc2; discriminate |].
    destruct (decide (om_AlbumID event = album)) as [Heq|Hne].
    + exfalso. apply (one_holder album hs i j _ _ Hl (not_eq_sym Hji) Hi Hj).
      * cbn. by apply String.eqb_eq.
      * unfold holds_lock. rewrite Hpc2. by apply String.eqb_eq.
    + destruct (Hp j h2 row2 Hj Hpc2 Ha2) as (r & Hrow & Hle & ->).
      exists r. split_and!; [| done | done].
      unfold set_inventory. cbn [inventory]. by rewrite lookup_insert_ne.
  - destruct (om_AlbumID event =? album)%string; cbn; lia.
  - done.
  - lia.
  - other_handlers Hp.
  - cbn. lia.
  - done.
  - lia.
  - other_handlers Hp.
Qed.

Lemma step_invariant album inv0 i env c c' :
  invariant album inv0 c -> step i env c = Some c' -> invariant album inv0 c'.
Proof.
  intros Hinv (h & p' & w' & Hi & Hm & ->)%step_move.
  by apply (move_invariant album inv0 env).
Qed.

Lemma run_invariant album inv0 sched c :
  invariant album inv0 c -> invariant album inv0 (run sched c).
Proof.
  revert c. induction sched as [|[i env] sched IH]; intros c Hinv; [done |].
  cbn. destruct (step i env c) as [c'|] eqn:Hstep; [| by apply IH].
  apply IH. by apply (step_invariant album inv0 i env c).
Qed.

Lemma start_received w events i h :
  c_handlers (start w events) !! i = Some h -> h_pc h = Received.
Proof.
  cbn. rewrite list_lookup_fmap. destruct (events !! i); [| done].
  cbn. by intros [= <-].
Qed.

Lemma total_start (f : handler -> Z) w events :
  (forall e, f (mkHandler e Received) = 0) -> total f (c_handlers (start w events)) = 0.
Proof. intros Hf. cbn. induction events as [|e events IH]; cbn; [done |]. rewrite Hf. lia. Qed.

Lemma start_invariant album w events :
  0 <= stock (inventory w) album ->
  invariant album (inventory w) (start w events).
Proof.
  intros Hnn. constructor.
  - unfold success_quantity. rewrite total_start by done. cbn. lia.
  - done.
  - unfold lock_count. rewrite total_start by done. lia.
  - intros i h row Hi Hpc _. apply start_received in Hi. congruence.
Qed.

(** The handlers keep their events. *)
Lemma step_events i env c c' :
  step i env c = Some c' -> h_event <$> c_handlers c' = h_event <$> c_handlers c.
Proof.
  intros (h & p' & w' & Hi & _ & ->)%step_move. cbn.
  rewrite list_fmap_insert. cbn. apply list_insert_id.
  by rewrite list_lookup_fmap, Hi.
Qed.

Lemma run_events sched c :
  h_event <$> c_handlers (run sched c) = h_event <$> c_handlers c.
Proof.
  revert c. induction sched as [|[i env] sched IH]; intros c; [done |].
  cbn. destruct (step i env c) as [c'|] eqn:Hstep; [| by apply IH].
  rewrite IH. by apply (step_events i env).
Qed.

Lemma start_events w events : h_event <$> c_handlers (start w events) = events.
Proof.
  cbn. rewrite <- list_fmap_compose. induction events as [|e events IH]; [done |].
  cbn. by rewrite IH.
Qed.

(** Written outcome events and handlers that have returned go together. *)
Lemma step_published orderID i env c c' :
  step i env c = Some c' ->
  total (fun k => indicator (is_success_for orderID k)) (writes (c_world c'))
    - total (fun h => indicator (succeeded_for orderID h)) (c_handlers c')
  = total (fun k => indicator (is_success_for orderID k)) (writes (c_world c))
    - total (fun h => indicator (succeeded_for orderID h)) (c_handlers c)
  /\ total (fun k => indicator (is_failure_for orderID k)) (writes (c_world c'))
      - total (fun h => indicator (failed_for orderID h)) (c_handlers c')
    = total (fun k => indicator (is_failure_for orderID k)) (writes (c_world c))
      - total (fun h => indicator (failed_for orderID h)) (c_handlers c).
Proof.
  intros (h & p' & w' & Hi & Hm & ->)%step_move. cbn [c_world c_handlers].
  rewrite !(total_insert _ _ _ _ _ Hi).
  destruct c as [w hs]. destruct h as [event p]. cbn [c_world c_handlers h_event h_pc] in *.
  inversion Hm; subst; unfold succeeded_for, failed_for;
    cbn [h_pc h_event writes add_write set_inventory indicator];
    rewrite ?total_app; cbn [total];
    unfold is_success_for, is_failure_for; cbn; split; lia.
Qed.

Lemma run_published orderID sched c :
  total (fun k => indicator (is_success_for orderID k)) (writes (c_world (run sched c)))
    - total (fun h => indicator (succeeded_for orderID h)) (c_handlers (run sched c))
  = total (fun k => indicator (is_success_for orderID k)) (writes (c_world c))
    - total (fun h => indicator (succeeded_for orderID h)) (c_handlers c)
  /\ total (fun k => indicator (is_failure_for orderID k)) (writes (c_world (run sched c)))
      - total (fun h => indicator (failed_for orderID h)) (c_handlers (run sched c))
    = total (fun k => indicator (is_failure_for orderID k)) (writes (c_world c))
      - total (fun h => indicator (failed_for orderID h)) (c_handlers c).
Proof.
  revert c. induction sched as [|[i env] sched IH]; intros c; [done |].
  cbn. destruct (step i env c) as [c'|] eqn:Hstep; [| by apply IH].
  destruct (IH c') as [-> ->]. by apply (step_published orderID i env).
Qed.

End ConcurrentInvariant.

(** ** Runs come to an end *)

Lemma existsb_lookup {A : Type} (P : A -> bool) (l : list A) :
  existsb P l = true -> exists i x, l !! i = Some x /\ P x = true.
Proof.
  induction l as [|a l IH]; [done |]. cbn. intros [Ha | Hl]%orb_true_iff.
  - by exists 0%nat, a.
  - destruct (IH Hl) as (i & x & Hi & Hx). by exists (S i), x.
Qed.

Lemma existsb_none {A : Type} (P : A -> bool) (l : list A) (i : nat) (x : A) :
  existsb P l = false -> l !! i = Some x -> P x = false.
Proof.
  revert i. induction l as [|a l IH]; intros [|i]; try done; cbn;
    intros [Ha Hl]%orb_false_iff Hi.
  - congruence.
  - by apply (IH i).
Qed.

Lemma forallb_lookup {A : Type} (P : A -> bool) (l : list A) (i : nat) (x : A) :
  forallb P l = true -> l !! i = Some x -> P x = true.
Proof.
  revert i. induction l as [|a l IH]; intros [|i]; try done; cbn;
    intros [Ha Hl]%andb_true_iff Hi.
  - congruence.
  - by apply (IH i).
Qed.

Lemma forallb_fails {A : Type} (P : A -> bool) (l : list A) :
  forallb P l = false -> exists i x, l !! i = Some x /\ P x = false.
Proof.
  induction l as [|a l IH]; [done |]. cbn. intros [Ha | Hl]%andb_false_iff.
  - by exists 0%nat, a.
  - destruct (IH Hl) as (i & x & Hi & Hx). by exists (S i), x.
Qed.

Module ConcurrentProgress.
Import Concurrent ConcurrentFacts ConcurrentInvariant.

Lemma busy_moves i env c h :
  storage_answers env -> c_handlers c !! i = Some h -> busy h = true ->
  is_Some (step i env c).
Proof.
  intros (_ & _ & _ & Hc) Hi Hb. unfold step. rewrite Hi.
  unfold busy in Hb. destruct (h_pc h); try done.
  rewrite Hc. by eauto.
Qed.

Lemma received_moves i env c h :
  storage_answers env -> c_handlers c !! i = Some h -> h_pc h = Received ->
  existsb busy (c_handlers c) = false ->
  is_Some (step i env c).
Proof.
  intros (Hb & He & Hr & _) Hi Hpc Hidle. unfold step. rewrite Hi, Hpc, Hb, He, Hr.
  destruct (inventory (c_world c) !! om_AlbumID (h_event h)) as [r|]; [| by eauto].
  destruct (om_Quantity (h_event h) <=? quantity_available r); [| by eauto].
  destruct (row_locked _ _) eqn:Hlock; [| by eauto].
  apply existsb_lookup in Hlock as (j & hj & Hj & Hheld).
  pose proof (existsb_none _ _ _ _ Hidle Hj) as Hnot.
  unfold holds_lock in Hheld. unfold busy in Hnot. by destruct (h_pc hj).
Qed.

(** While a handler has not returned, some handler can move. *)
Lemma progress c :
  quiescent c = false ->
  exists i, forall env, storage_answers env -> is_Some (step i env c).
Proof.
  intros (i & h & Hi & Hterm)%forallb_fails.
  destruct (existsb busy (c_handlers c)) eqn:Hbusy.
  - apply existsb_lookup in Hbusy as (j & hj & Hj & Hb).
    exists j. intros env Hans. by apply (busy_moves j env c hj).
  - exists i. intros env Hans. apply (received_moves i env c h); try done.
    pose proof (existsb_none _ _ _ _ Hbusy Hi) as Hnot.
    unfold terminal in Hterm. unfold busy in Hnot. by destruct (h_pc h).
Qed.

Lemma rank_nonneg (hs : list handler) : 0 <= total (fun h => rank (h_pc h)) hs.
Proof. apply total_nonneg. intros h. by destruct (h_pc h). Qed.

Lemma step_remaining i env c c' :
  step i env c = Some c' -> remaining c' < remaining c.
Proof.
  intros (h & p' & w' & Hi & Hm & ->)%step_move. unfold remaining. cbn [c_handlers].
  rewrite (total_insert _ _ _ _ _ Hi). cbn [h_pc].
  inversion Hm; cbn; lia.
Qed.

Lemma completes (n : nat) c :
  remaining c <= Z.of_nat n ->
  exists sched, fault_free sched /\ quiescent (run sched c) = true.
Proof.
  revert c. induction n as [|n IH]; intros c Hn.
  - destruct (quiescent c) eqn:Hq; [exists []; split; [constructor | done] |].
    destruct (progress c Hq) as (i & Hmove).
    destruct (Hmove (calm 0) (calm_answers 0)) as [c' Hstep].
    pose proof (step_remaining i _ c c' Hstep).
    pose proof (rank_nonneg (c_handlers c')). unfold remaining in *. lia.
  - destruct (quiescent c) eqn:Hq; [exists []; split; [constructor | done] |].
    destruct (progress c Hq) as (i & Hmove).
    destruct (Hmove (calm 0) (calm_answers 0)) as [c' Hstep].
    pose proof (step_remaining i _ c c' Hstep).
    destruct (IH c') as (sched & Hff & Hdone); [lia |].
    exists ((i, calm 0) :: sched). split.
    + constructor; [apply calm_answers | done].
    + cbn [run]. by rewrite Hstep.
Qed.

(** Without storage faults no handler returns an error. *)
Lemma step_unfailed i env c c' :
  storage_answers env -> Forall unfailed (c_handlers c) ->
  step i env c = Some c' -> Forall unfailed (c_handlers c').
Proof.
  intros Hans Hall (h & p' & w' & Hi & Hm & ->)%step_move. cbn [c_handlers].
  apply Forall_insert; [done |]. unfold unfailed. cbn.
  by inversion Hm.
Qed.

Lemma run_unfailed sched c :
  fault_free sched -> Forall unfailed (c_handlers c) ->
  Forall unfailed (c_handlers (run sched c)).
Proof.
  intros Hff. revert c. induction Hff as [|[i env] sched Hans _ IH]; intros c Hall; [done |].
  cbn. destruct (step i env c) as [c'|] eqn:Hstep; [| by apply IH].
  apply IH. by apply (step_unfailed i env c).
Qed.

Lemma start_unfailed w events : Forall unfailed (c_handlers (start w events)).
Proof.
  apply Forall_lookup. intros i h Hi. unfold unfailed.
  by rewrite (start_received _ _ _ _ Hi).
Qed.

Lemma quiescent_unfailed_resolved c :
  quiescent c = true -> Forall unfailed (c_handlers c) -> Forall resolved (c_handlers c).
Proof.
  intros Hq Hall. apply Forall_lookup. intros i h Hi.
  pose proof (forallb_lookup _ _ _ _ Hq Hi) as Hterm.
  rewrite Forall_lookup in Hall. specialize (Hall i h Hi).
  unfold terminal in Hterm. unfold unfailed in Hall. unfold resolved.
  destruct (h_pc h); try done; by eauto.
Qed.

Lemma run_app s1 s2 c : run (s1 ++ s2) c = run s2 (run s1 c).
Proof.
  revert c. induction s1 as [|[i env] s1 IH]; intros c; [done |].
  cbn. by destruct (step i env c).
Qed.

End ConcurrentProgress.

(** A handler that runs alone does what [processOrderCreated] does. *)
Lemma alone_agrees unmarshalOrder env w msg event :
  unmarshalOrder (m_Value msg) = inr event ->
  Concurrent.c_world
    (Concurrent.run [(0%nat, env); (0%nat, env); (0%nat, env)]
       (Concurrent.start w [event])) =
  fst (processOrderCreated unmarshalOrder env w msg).
Proof.
  intros Hdec. unfold processOrderCreated. rewrite Hdec.
  unfold update_if_sufficient. cbn.
  destruct (f_begin env); [done |].
  destruct (f_exec env); [done |].
  destruct (inventory w !! om_AlbumID event) as [r|]; cbn.
  - destruct (om_Quantity event <=? quantity_available r); cbn.
    + destruct (f_rows env); [done |]. cbn. by destruct (f_commit env).
    + by destruct (f_rows env).
  - by destruct (f_rows env).
Qed.

(** C3.  Handlers of order-created events run concurrently against one
    table, in any interleaving and any environment, from a state in which
    the item's stock is not negative.  At every moment the quantities of the
    committed decrements of the item add up to at most the starting stock,
    and the stock is the starting stock less that sum; when the requested
    quantities are not negative, no two handlers have both decremented the
    item unless their quantities together fit in the starting stock.  The
    success and failure events handed to the writers for an order are as
    many as the handlers of that order that returned after a decrement and
    after a rejection.  Every run can be continued until all handlers have
    returned, and when no storage call fails, each handler has then
    returned after handing its success event or its failure event to the
    writer. *)
Theorem C3_conservation_under_concurrency :
  forall (w0 : World) (events : list OrderMessage) (album : string)
         (sched : list (nat * Faults)),
    0 <= stock (inventory w0) album ->
    let c := Concurrent.run sched (Concurrent.start w0 events) in
    let hs := Concurrent.c_handlers c in
    Concurrent.success_quantity album hs <= stock (inventory w0) album
    /\ stock (inventory (Concurrent.c_world c)) album =
         stock (inventory w0) album - Concurrent.success_quantity album hs
    /\ 0 <= stock (inventory (Concurrent.c_world c)) album
    /\ Concurrent.h_event <$> hs = events
    /\ (Forall (fun e => 0 <= om_Quantity e) events ->
        forall i j hi hj,
          i <> j -> hs !! i = Some hi -> hs !! j = Some hj ->
          Concurrent.decremented hi = true -> Concurrent.decremented hj = true ->
          om_AlbumID (Concurrent.h_event hi) = album ->
          om_AlbumID (Concurrent.h_event hj) = album ->
          om_Quantity (Concurrent.h_event hi) + om_Quantity (Concurrent.h_event hj)
            <= stock (inventory w0) album)
    /\ (forall orderID,
          total (fun k => indicator (is_success_for orderID k))
                (writes (Concurrent.c_world c)) =
            total (fun k => indicator (is_success_for orderID k)) (writes w0)
            + total (fun h => indicator (Concurrent.succeeded_for orderID h)) hs
          /\ total (fun k => indicator (is_failure_for orderID k))
                   (writes (Concurrent.c_world c)) =
               total (fun k => indicator (is_failure_for orderID k)) (writes w0)
               + total (fun h => indicator (Concurrent.failed_for orderID h)) hs)
    /\ (Concurrent.fault_free sched -> Concurrent.quiescent c = true ->
        Forall Concurrent.resolved hs)
    /\ (exists more,
          Concurrent.fault_free more /\
          Concurrent.quiescent (Concurrent.run more c) = true).
Proof.
  intros w0 events album sched Hnn. cbn zeta.
  set (c := Concurrent.run sched (Concurrent.start w0 events)).
  pose proof (ConcurrentInvariant.run_invariant album (inventory w0) sched _
                (ConcurrentInvariant.start_invariant album w0 events Hnn))
    as [Hstock Hcur _ _]. fold c in Hstock, Hcur.
  assert (Concurrent.h_event <$> Concurrent.c_handlers c = events) as Hev.
  { unfold c. rewrite ConcurrentInvariant.run_events.
    apply ConcurrentInvariant.start_events. }
  split_and!.
  - lia.
  - exact Hstock.
  - exact Hcur.
  - exact Hev.
  - intros Hpos i j hi hj Hne Hi Hj Hdi Hdj Hai Haj.
    assert (Forall (fun h => 0 <= (if Concurrent.decremented h
                                      && String.eqb (om_AlbumID (Concurrent.h_event h)) album
                                   then om_Quantity (Concurrent.h_event h) else 0))
                   (Concurrent.c_handlers c)) as Hall.
    { rewrite <- Hev in Hpos. rewrite Forall_fmap in Hpos.
      eapply Forall_impl; [exact Hpos |]. intros h Hh. cbn in Hh.
      by destruct (_ && _). }
    pose proof (total_ge_two _ _ i j hi hj Hall Hne Hi Hj) as Hsum. cbn beta in Hsum.
    rewrite Hdi, Hdj, Hai, Haj, String.eqb_refl in Hsum. cbn in Hsum.
    unfold Concurrent.success_quantity in Hstock. lia.
  - intros orderID.
    destruct (ConcurrentInvariant.run_published orderID sched
                (Concurrent.start w0 events)) as [Hs Hf]. fold c in Hs, Hf.
    rewrite !ConcurrentInvariant.total_start in Hs, Hf by done.
    cbn [Concurrent.start Concurrent.c_world] in Hs, Hf. lia.
  - intros Hff Hq. apply ConcurrentProgress.quiescent_unfailed_resolved; [done |].
    apply ConcurrentProgress.run_unfailed; [done |].
    apply ConcurrentProgress.start_unfailed.
  - apply (ConcurrentProgress.completes (Z.to_nat (Concurrent.remaining c))).
    pose proof (ConcurrentProgress.rank_nonneg (Concurrent.c_handlers c)).
    unfold Concurrent.remaining in *. lia.
Qed.

Lemma C3_conservation_under_concurrency_witness :
  0 <= stock (inventory (Sample.shelf 3)) "A" /\
  Concurrent.success_quantity "A"
    (Concurrent.c_handlers
       (Concurrent.run Sample.interleaved
          (Concurrent.start (Sample.shelf 3) Sample.four_orders)))
  <= stock (inventory (Sample.shelf 3)) "A".
Proof.
  assert (0 <= stock (inventory (Sample.shelf 3)) "A") as Hnn by (vm_compute; discriminate).
  split; [exact Hnn |].
  exact (proj1 (C3_conservation_under_concurrency (Sample.shelf 3) Sample.four_orders "A"
                  Sample.interleaved Hnn)).
Defined.

(** Item A holds 3 and four orders of one unit run concurrently: three
    succeed, the one that finds the shelf empty fails, and the stock ends
    at 0. *)
Example four_orders_for_three_units :
  let c := Concurrent.run Sample.interleaved
             (Concurrent.start (Sample.shelf 3) Sample.four_orders) in
  Concurrent.h_pc <$> Concurrent.c_handlers c =
    [Concurrent.SucceededDone; Concurrent.SucceededDone;
     Concurrent.FailedDone; Concurrent.SucceededDone]
  /\ stock (inventory (Concurrent.c_world c)) "A" = 0
  /\ (fun k => (wc_topic k, out_Key (wc_msg k))) <$> writes (Concurrent.c_world c) =
       [("order-succeeded", "o1"); ("order-succeeded", "o2");
        ("order-failed", "o3"); ("order-succeeded", "o4")].
Proof. vm_compute. by split_and!. Qed.

(** ** The synchronous reservation *)


(** A call that runs alone in the interleaving model is [reserveInventory]. *)
Lemma reserve_alone_agrees env w albumID quantity :
  Reserve.c_world
    (Reserve.run [(0%nat, env); (0%nat, env); (0%nat, env)]
       (Reserve.start w [(albumID, quantity)])) =
  fst (reserveInventory env w albumID quantity).
Proof.
  unfold reserveInventory. cbn.
  destruct (select_quantity (f_query env) albumID (inventory w)) as [err|cur]; cbn.
  - by destruct (decide (err = sqlErrNoRows)).
  - destruct (cur <? quantity); cbn; [done |].
    destruct (f_exec env); cbn; [done |].
    by destruct (select_quantity (f_requery env) albumID _).
Qed.

(** C9 (the code at the failing input).  Item A holds 1 and two calls of
    [reserveInventory] for one unit of A run with their statements in turn:
    both read 1, both pass the check, both update, both return nil, and the
    row ends at -1. *)
Theorem C9_interleaved_reservations_oversell :
  let c := Reserve.run Sample.alternating
             (Reserve.start (Sample.shelf 1) Sample.two_reservations) in
  Reserve.r_pc <$> Reserve.c_calls c = [Reserve.Returned None; Reserve.Returned None]
  /\ inventory (Reserve.c_world c) !! "A" = Some (mkRow (-1) 4).
Proof. vm_compute. by split. Qed.

(** * Further properties of the inventory service *)

(** ** Runs of the order consumer *)

Section OrderRuns.

Variable unmarshalOrder : string -> error + OrderMessage.

(** One message changes at most the quantity of the row of its event. *)
Lemma processOrderCreated_frame env w msg :
  let w' := fst (processOrderCreated unmarshalOrder env w msg) in
  dom (inventory w') = dom (inventory w)
  /\ (forall a r', inventory w' !! a = Some r' ->
        exists r, inventory w !! a = Some r /\ last_updated r' = last_updated r)
  /\ (forall a,
        (forall event, unmarshalOrder (m_Value msg) = inr event -> om_AlbumID event <> a) ->
        inventory w' !! a = inventory w !! a).
Proof.
  cbn zeta.
  destruct (processOrderCreated_inventory unmarshalOrder env w msg)
    as [-> | (event & Hdec & r & Hrow & Hle & ->)].
  - split_and!; [done | by eauto | done].
  - split_and!.
    + apply dom_insert_lookup_L. by eauto.
    + intros a r'. destruct (decide (om_AlbumID event = a)) as [<-|Hne].
      * rewrite lookup_insert_eq. intros [= <-]. by exists r.
      * rewrite lookup_insert_ne by done. by eauto.
    + intros a Hother. specialize (Hother event Hdec). by rewrite lookup_insert_ne.
Qed.

(** The stock an order takes is the quantity its success event stands for. *)
Lemma processOrderCreated_granted album_of qty_of env w msg album :
  (forall event, unmarshalOrder (m_Value msg) = inr event ->
     om_AlbumID event = album_of (om_OrderID event) /\
     om_Quantity event = qty_of (om_OrderID event)) ->
  let w' := fst (processOrderCreated unmarshalOrder env w msg) in
  stock (inventory w') album =
  stock (inventory w) album
  - (total (granted album_of qty_of album) (writes w')
     - total (granted album_of qty_of album) (writes w)).
Proof.
  intros Hids. cbn zeta. unfold processOrderCreated.
  destruct (unmarshalOrder (m_Value msg)) as [err|event] eqn:Hdec; [cbn; lia |].
  destruct (Hids event eq_refl) as [Halbum Hqty].
  destruct (f_begin env); [cbn; lia |].
  destruct (f_exec env); [cbn; lia |].
  destruct (update_if_sufficient_cases (om_Quantity event) (om_AlbumID event) (inventory w))
    as [(r & Hrow & Hle & ->) | [_ ->]].
  - destruct (f_rows env); [cbn; lia |]. cbn [Z.eqb Pos.eqb].
    destruct (f_commit env); [cbn; lia |].
    rewrite sendOrderSucceededEvent_eq. cbn [fst add_write set_inventory inventory writes].
    rewrite total_app. cbn [total]. unfold granted at 2. cbn.
    rewrite <- Halbum, <- Hqty.
    destruct (String.eqb_spec (om_AlbumID event) album) as [<-|Hne].
    + rewrite stock_insert_eq. cbn. unfold stock. rewrite Hrow. lia.
    + rewrite stock_insert_ne by done. lia.
  - destruct (f_rows env); [cbn; lia |]. cbn [Z.eqb].
    rewrite sendOrderFailedEvent_eq. cbn [fst add_write inventory writes].
    rewrite total_app. cbn. lia.
Qed.

End OrderRuns.

(** X1.  Order-created messages whose payload does not decode leave no
    trace: the tables and the written events after a run of the consumer
    are those of the run over the decodable messages alone. *)
Theorem X1_undecodable_orders_leave_no_trace :
  forall (unmarshalOrder : string -> error + OrderMessage)
         (ds : list (Faults * Message)) (w : World),
    fst (startOrderConsumer unmarshalOrder ds w) =
    fst (startOrderConsumer unmarshalOrder (List.filter (decodes unmarshalOrder) ds) w).
Proof.
  intros unmarshalOrder ds. induction ds as [|[env msg] ds IH]; intros w; [done |].
  cbn [List.filter]. unfold decodes at 1. cbn [snd].
  destruct (unmarshalOrder (m_Value msg)) as [err|event] eqn:Hdec.
  - rewrite startOrderConsumer_cons.
    rewrite (processOrderCreated_undecodable _ _ _ _ err Hdec). apply IH.
  - rewrite !startOrderConsumer_cons. apply IH.
Qed.

(** X2.  A run of the order consumer neither adds nor removes a row,
    never changes [last_updated], and leaves alone every row that no
    decodable message of the run orders from. *)
Theorem X2_orders_change_only_ordered_quantities :
  forall (unmarshalOrder : string -> error + OrderMessage)
         (ds : list (Faults * Message)) (w : World),
    dom (inventory (fst (startOrderConsumer unmarshalOrder ds w))) = dom (inventory w)
    /\ (forall a r',
          inventory (fst (startOrderConsumer unmarshalOrder ds w)) !! a = Some r' ->
          exists r, inventory w !! a = Some r /\ last_updated r' = last_updated r)
    /\ (forall a,
          (forall env msg event,
              (env, msg) ∈ ds -> unmarshalOrder (m_Value msg) = inr event ->
              om_AlbumID event <> a) ->
          inventory (fst (startOrderConsumer unmarshalOrder ds w)) !! a = inventory w !! a).
Proof.
  intros unmarshalOrder ds. induction ds as [|[env msg] ds IH]; intros w.
  { split_and!; [done | by eauto | done]. }
  rewrite startOrderConsumer_cons.
  destruct (processOrderCreated_frame unmarshalOrder env w msg) as (Hdom & Hlu & Hother).
  destruct (IH (fst (processOrderCreated unmarshalOrder env w msg))) as (IHdom & IHlu & IHother).
  split_and!.
  - by rewrite IHdom.
  - intros a r' Hr'. destruct (IHlu a r' Hr') as (r1 & Hr1 & Heq1).
    destruct (Hlu a r1 Hr1) as (r & Hr & Heq). exists r. split; [done | congruence].
  - intros a Hnone. rewrite IHother, Hother; [done | |].
    + intros event Hdec. apply (Hnone env msg event); [apply list_elem_of_here | done].
    + intros env' msg' event Hin Hdec.
      apply (Hnone env' msg' event); [by apply list_elem_of_further | done].
Qed.

(** X3.  When the order identifier fixes the item and the quantity of an
    order, the stock a run of the order consumer takes from an item is the
    sum of the quantities of the success events it hands to the writer for
    that item, in any environment. *)
Theorem X3_stock_taken_is_quantity_granted :
  forall (unmarshalOrder : string -> error + OrderMessage)
         (album_of : string -> string) (qty_of : string -> Z)
         (ds : list (Faults * Message)) (w : World) (album : string),
    (forall env msg event,
        (env, msg) ∈ ds -> unmarshalOrder (m_Value msg) = inr event ->
        om_AlbumID event = album_of (om_OrderID event) /\
        om_Quantity event = qty_of (om_OrderID event)) ->
    stock (inventory (fst (startOrderConsumer unmarshalOrder ds w))) album =
    stock (inventory w) album
    - (total (granted album_of qty_of album)
             (writes (fst (startOrderConsumer unmarshalOrder ds w)))
       - total (granted album_of qty_of album) (writes w)).
Proof.
  intros unmarshalOrder album_of qty_of ds. induction ds as [|[env msg] ds IH];
    intros w album Hids; [cbn; lia |].
  rewrite startOrderConsumer_cons.
  rewrite IH.
  - rewrite (processOrderCreated_granted unmarshalOrder album_of qty_of env w msg album).
    + lia.
    + intros event Hdec. apply (Hids env msg event); [apply list_elem_of_here | done].
  - intros env' msg' event Hin Hdec.
    apply (Hids env' msg' event); [by apply list_elem_of_further | done].
Qed.

(** X4.  A publication that fails after the decrement was committed is
    only logged: the row keeps the decrement, the success event is on
    record as handed to the writer and refused, the handler returns nil and
    the loop marks the message as consumed. *)
Theorem X4_failed_publish_keeps_the_decrement :
  forall (unmarshalOrder : string -> error + OrderMessage) (env : Faults) (w : World)
         (msg : Message) (event : OrderMessage) (r : Row) (e : error),
    unmarshalOrder (m_Value msg) = inr event ->
    storage_answers env ->
    inventory w !! om_AlbumID event = Some r ->
    om_Quantity event <= quantity_available r ->
    f_write env = Some e ->
    processOrderCreated unmarshalOrder env w msg =
      (mkWorld
         (<[om_AlbumID event :=
              mkRow (quantity_available r - om_Quantity event) (last_updated r)]>
            (inventory w))
         (processed_orders w)
         (writes w ++
          [mkWriteCall orderSucceededTopic
             (mkOutMessage (om_OrderID event)
                (Succeeded (mkOrderSucceededEvent (om_OrderID event) (now env))) [])
             (Some e)]),
       None)
    /\ marked_consumed (snd (orderConsumerTurn unmarshalOrder env w msg)) = true.
Proof.
  intros unmarshalOrder env w msg event r e Hdec Hans Hrow Hle Hwrite.
  assert (processOrderCreated unmarshalOrder env w msg =
          (add_write (success_write env (om_OrderID event))
             (set_inventory
                (<[om_AlbumID event :=
                     mkRow (quantity_available r - om_Quantity event) (last_updated r)]>
                   (inventory w)) w), None)) as Hres.
  { rewrite (processOrderCreated_answers _ _ _ _ event Hdec Hans). cbn zeta.
    by rewrite (update_if_sufficient_hit _ _ _ r Hrow Hle). }
  split.
  - rewrite Hres. unfold add_write, set_inventory, success_write. cbn. by rewrite Hwrite.
  - rewrite orderConsumerTurn_marked. by rewrite Hres.
Qed.

Lemma X4_failed_publish_keeps_the_decrement_witness :
  inventory
    (fst (processOrderCreated Sample.unmarshalOrder
            (mkFaults None None None None None None (Some (ErrText "broker down")) None 7)
            (Sample.shelf 2) Sample.order_o1)) !! "A" = Some (mkRow 1 0).
Proof.
  exact (f_equal (fun p => inventory (fst p) !! "A")
           (proj1 (X4_failed_publish_keeps_the_decrement Sample.unmarshalOrder
                     (mkFaults None None None None None None (Some (ErrText "broker down"))
                        None 7)
                     (Sample.shelf 2) Sample.order_o1
                     (mkOrderMessage "o1" "A" 1 "u1" "2024-05-01T10:00:00Z")
                     (mkRow 2 0) (ErrText "broker down")
                     eq_refl (conj eq_refl (conj eq_refl (conj eq_refl eq_refl)))
                     eq_refl ltac:(vm_compute; discriminate) eq_refl))).
Defined.

(** ** Both consumers *)

Section ServiceRuns.

Variable unmarshalOrder : string -> error + OrderMessage.
Variable unmarshalAlbum : string -> error + AlbumCreatedEvent.

Lemma runConsumers_cons d ds w :
  fst (runConsumers unmarshalOrder unmarshalAlbum (d :: ds) w) =
  fst (runConsumers unmarshalOrder unmarshalAlbum ds
         (fst (consumerTurn unmarshalOrder unmarshalAlbum d w))).
Proof.
  cbn. destruct (consumerTurn unmarshalOrder unmarshalAlbum d w) as [w1 o]. cbn.
  by destruct (runConsumers unmarshalOrder unmarshalAlbum ds w1).
Qed.

Lemma consumerTurn_order env msg w :
  fst (consumerTurn unmarshalOrder unmarshalAlbum (OrderCreated env msg) w) =
  fst (processOrderCreated unmarshalOrder env w msg).
Proof. cbn. apply orderConsumerTurn_world. Qed.

Lemma consumerTurn_album env msg w :
  fst (consumerTurn unmarshalOrder unmarshalAlbum (AlbumCreated env msg) w) =
  fst (processAlbumCreatedEvent unmarshalAlbum env w msg).
Proof. cbn. apply albumConsumerTurn_world. Qed.

(** The album-created handler changes nothing, or inserts the row of an
    item that had none, with a quantity that is not negative; it writes no
    message. *)
Lemma processAlbumCreatedEvent_cases env w msg :
  let w' := fst (processAlbumCreatedEvent unmarshalAlbum env w msg) in
  writes w' = writes w /\ processed_orders w' = processed_orders w /\
  (inventory w' = inventory w \/
   exists event q,
     unmarshalAlbum (m_Value msg) = inr event /\
     inventory w !! ac_AlbumID event = None /\ 0 <= q /\
     inventory w' = <[ac_AlbumID event := mkRow q (now env)]> (inventory w)).
Proof.
  cbn zeta. unfold processAlbumCreatedEvent.
  destruct (unmarshalAlbum (m_Value msg)) as [err|event] eqn:Hdec; [by split_and!; [| | left] |].
  destruct (f_exec env); [by split_and!; [| | left] |]. cbn.
  split_and!; [done | done |].
  unfold insert_on_conflict_do_nothing.
  destruct (inventory w !! ac_AlbumID event) as [r|] eqn:Hrow; [by left |].
  right. eexists event, _. split_and!; [done | done | | reflexivity].
  destruct (ac_InitialQuantity event) as [d|]; [| done].
  destruct (Z.leb_spec 0 d); lia.
Qed.

Lemma consumerTurn_nonneg d w :
  (forall a r, inventory w !! a = Some r -> 0 <= quantity_available r) ->
  forall a r,
    inventory (fst (consumerTurn unmarshalOrder unmarshalAlbum d w)) !! a = Some r ->
    0 <= quantity_available r.
Proof.
  intros Hnn a r. destruct d as [env msg | env msg].
  - rewrite consumerTurn_order. intros Hrow.
    assert (0 <= stock (inventory w) a) as Hs.
    { unfold stock. destruct (inventory w !! a) as [r0|] eqn:Hr0; [by eapply Hnn | done]. }
    pose proof (processOrderCreated_nonneg unmarshalOrder env w msg a Hs) as Hs'.
    unfold stock in Hs'. by rewrite Hrow in Hs'.
  - rewrite consumerTurn_album.
    destruct (processAlbumCreatedEvent_cases env w msg)
      as (_ & _ & [-> | (event & q & _ & _ & Hq & ->)]); [by apply Hnn |].
    destruct (decide (ac_AlbumID event = a)) as [<-|Hne].
    + rewrite lookup_insert_eq. by intros [= <-].
    + rewrite lookup_insert_ne by done. by apply Hnn.
Qed.

Lemma consumerTurn_dom d w :
  dom (inventory w) ⊆ dom (inventory (fst (consumerTurn unmarshalOrder unmarshalAlbum d w))).
Proof.
  destruct d as [env msg | env msg].
  - rewrite consumerTurn_order.
    by destruct (processOrderCreated_frame unmarshalOrder env w msg) as (-> & _).
  - rewrite consumerTurn_album.
    destruct (processAlbumCreatedEvent_cases env w msg)
      as (_ & _ & [-> | (event & q & _ & _ & _ & ->)]); [done |].
    rewrite dom_insert_L. set_solver.
Qed.

(** One turn hands at most one message to a writer, and it has the shape
    of an outcome event. *)
Lemma consumerTurn_writes d w :
  exists new,
    writes (fst (consumerTurn unmarshalOrder unmarshalAlbum d w)) = (writes w ++ new)%list /\
    Forall outcome_write new /\ (length new <= 1)%nat.
Proof.
  assert (forall ws : list WriteCall,
            exists new, ws = (ws ++ new)%list /\ Forall outcome_write new /\
                        (length new <= 1)%nat) as Hnone.
  { intros ws. exists []. rewrite app_nil_r. split_and!; [done | constructor | cbn; lia]. }
  destruct d as [env msg | env msg].
  - rewrite consumerTurn_order. unfold processOrderCreated.
    destruct (unmarshalOrder (m_Value msg)) as [err|event]; [apply Hnone |].
    destruct (f_begin env); [apply Hnone |].
    destruct (f_exec env); [apply Hnone |].
    destruct (update_if_sufficient _ _ _) as [inv' rows].
    destruct (f_rows env); [apply Hnone |].
    destruct (rows =? 1).
    + destruct (f_commit env); [apply Hnone |].
      eexists. split; [reflexivity |]. split; [| cbn; lia].
      repeat constructor.
    + eexists. split; [reflexivity |]. split; [| cbn; lia].
      repeat constructor.
  - rewrite consumerTurn_album.
    destruct (processAlbumCreatedEvent_cases env w msg) as (-> & _).
    apply Hnone.
Qed.

End ServiceRuns.

(** X5.  An item without a row, its album-created event with initial
    quantity [n >= 0], and an order for [q <= n] of it.  When the
    album-created message is handled first, the order succeeds and the row
    holds [n - q].  When the order-created message is handled first, the
    order fails with INSUFFICIENT_INVENTORY, and the row that the later
    bootstrap inserts holds [n]: the failed order is not taken up again. *)
Theorem X5_order_after_and_before_bootstrap :
  forall (unmarshalOrder : string -> error + OrderMessage)
         (unmarshalAlbum : string -> error + AlbumCreatedEvent)
         (w : World) (envA envO : Faults) (albumMsg orderMsg : Message)
         (album : AlbumCreatedEvent) (order : OrderMessage) (n : Z),
    unmarshalAlbum (m_Value albumMsg) = inr album ->
    unmarshalOrder (m_Value orderMsg) = inr order ->
    om_AlbumID order = ac_AlbumID album ->
    ac_InitialQuantity album = Some n ->
    inventory w !! ac_AlbumID album = None ->
    f_exec envA = None ->
    storage_answers envO ->
    0 <= n ->
    om_Quantity order <= n ->
    (let after := fst (runConsumers unmarshalOrder unmarshalAlbum
                         [AlbumCreated envA albumMsg; OrderCreated envO orderMsg] w) in
     inventory after !! ac_AlbumID album = Some (mkRow (n - om_Quantity order) (now envA))
     /\ writes after = (writes w ++ [success_write envO (om_OrderID order)])%list)
    /\ (let before := fst (runConsumers unmarshalOrder unmarshalAlbum
                             [OrderCreated envO orderMsg; AlbumCreated envA albumMsg] w) in
        inventory before !! ac_AlbumID album = Some (mkRow n (now envA))
        /\ writes before =
             (writes w ++ [failure_write envO (om_OrderID order) "INSUFFICIENT_INVENTORY"])%list).
Proof.
  intros unmarshalOrder unmarshalAlbum w envA envO albumMsg orderMsg album order n
         HdecA HdecO Hsame Hinit Habsent HexecA HansO Hn Hq.
  assert (forall w0, inventory w0 !! ac_AlbumID album = None ->
            processAlbumCreatedEvent unmarshalAlbum envA w0 albumMsg =
            (set_inventory (<[ac_AlbumID album := mkRow n (now envA)]> (inventory w0)) w0, None))
    as Hboot.
  { intros w0 Hnone. unfold processAlbumCreatedEvent. rewrite HdecA, HexecA, Hinit.
    destruct (Z.leb_spec 0 n); [| lia].
    unfold insert_on_conflict_do_nothing. by rewrite Hnone. }
  cbn zeta. split.
  - rewrite runConsumers_cons, consumerTurn_album, (Hboot w Habsent). cbn [fst].
    rewrite runConsumers_cons, consumerTurn_order. cbn [runConsumers fst].
    rewrite (processOrderCreated_answers _ _ _ _ order HdecO HansO). cbn zeta.
    rewrite (update_if_sufficient_hit _ _ _ (mkRow n (now envA))).
    + cbn. rewrite Hsame. by rewrite lookup_insert_eq.
    + cbn. rewrite Hsame. by rewrite lookup_insert_eq.
    + done.
  - rewrite runConsumers_cons, consumerTurn_order.
    rewrite (processOrderCreated_answers _ _ _ _ order HdecO HansO). cbn zeta.
    rewrite update_if_sufficient_absent by (by rewrite Hsame). cbn [fst snd Z.eqb].
    rewrite runConsumers_cons, consumerTurn_album. cbn [runConsumers fst].
    rewrite Hboot by done. cbn. by rewrite lookup_insert_eq.
Qed.

Lemma X5_order_after_and_before_bootstrap_witness :
  inventory
    (fst (runConsumers Sample.unmarshalOrder Sample.unmarshalAlbum
            [AlbumCreated (calm 3) Sample.album_A; OrderCreated (calm 4) Sample.order_o1]
            (mkWorld ∅ None []))) !! "A" = Some (mkRow 4 3)
  /\ inventory
       (fst (runConsumers Sample.unmarshalOrder Sample.unmarshalAlbum
               [OrderCreated (calm 4) Sample.order_o1; AlbumCreated (calm 3) Sample.album_A]
               (mkWorld ∅ None []))) !! "A" = Some (mkRow 5 3).
Proof.
  destruct (X5_order_after_and_before_bootstrap Sample.unmarshalOrder Sample.unmarshalAlbum
              (mkWorld ∅ None []) (calm 3) (calm 4) Sample.album_A Sample.order_o1
              (mkAlbumCreatedEvent "A" "Blue" "Ann" 0 (Some 5))
              (mkOrderMessage "o1" "A" 1 "u1" "2024-05-01T10:00:00Z") 5
              eq_refl eq_refl eq_refl eq_refl (lookup_empty _) eq_refl (calm_answers 4)
              ltac:(lia) ltac:(vm_compute; discriminate))
    as [[Hafter _] [Hbefore _]].
  split; [exact Hafter | exact Hbefore].
Defined.

(** X6.  Whatever the two loops are given and in whatever order their
    turns come, in any environment: if no row holds a negative quantity
    before, none does after, and no row disappears. *)
Theorem X6_consumers_keep_quantities_nonnegative :
  forall (unmarshalOrder : string -> error + OrderMessage)
         (unmarshalAlbum : string -> error + AlbumCreatedEvent)
         (ds : list Delivery) (w : World),
    (forall a r, inventory w !! a = Some r -> 0 <= quantity_available r) ->
    (forall a r,
        inventory (fst (runConsumers unmarshalOrder unmarshalAlbum ds w)) !! a = Some r ->
        0 <= quantity_available r)
    /\ dom (inventory w) ⊆
       dom (inventory (fst (runConsumers unmarshalOrder unmarshalAlbum ds w))).
Proof.
  intros unmarshalOrder unmarshalAlbum ds.
  induction ds as [|d ds IH]; intros w Hnn; [by split |].
  rewrite runConsumers_cons.
  destruct (IH (fst (consumerTurn unmarshalOrder unmarshalAlbum d w))) as [IHnn IHdom].
  { by apply consumerTurn_nonneg. }
  split; [exact IHnn |].
  etrans; [apply (consumerTurn_dom unmarshalOrder unmarshalAlbum d w) | exact IHdom].
Qed.

Lemma X6_consumers_keep_quantities_nonnegative_witness :
  dom (inventory (Sample.shelf 1)) ⊆
  dom (inventory
         (fst (runConsumers Sample.unmarshalOrder Sample.unmarshalAlbum
                 [OrderCreated (calm 4) Sample.order_o1; AlbumCreated (calm 3) Sample.album_A;
                  OrderCreated (calm 5) Sample.order_o1]
                 (Sample.shelf 1)))).
Proof.
  apply (X6_consumers_keep_quantities_nonnegative Sample.unmarshalOrder
           Sample.unmarshalAlbum).
  intros a r Hrow. unfold Sample.shelf in Hrow. cbn [inventory] in Hrow.
  apply lookup_singleton_Some in Hrow as [_ <-]. cbn. lia.
Defined.

Lemma X3_stock_taken_is_quantity_granted_witness :
  stock
    (inventory
       (fst (startOrderConsumer Sample.unmarshalOrder
               [(calm 1, Sample.order_o1); (calm 2, Sample.order_o2);
                (calm 3, Sample.order_o1)] (Sample.shelf 5)))) "A" =
  stock (inventory (Sample.shelf 5)) "A"
  - (total (granted (fun id => if String.eqb id "o1" then "A" else "B") (fun _ => 1) "A")
       (writes
          (fst (startOrderConsumer Sample.unmarshalOrder
                  [(calm 1, Sample.order_o1); (calm 2, Sample.order_o2);
                   (calm 3, Sample.order_o1)] (Sample.shelf 5))))
     - total (granted (fun id => if String.eqb id "o1" then "A" else "B") (fun _ => 1) "A")
         (writes (Sample.shelf 5))).
Proof.
  apply (X3_stock_taken_is_quantity_granted Sample.unmarshalOrder).
  intros env msg event _. unfold Sample.unmarshalOrder.
  destruct (String.eqb (m_Value msg) "order o1: 1 of A"); [by intros [= <-] |].
  destruct (String.eqb (m_Value msg) "order o2: 1 of B"); [by intros [= <-] |].
  discriminate.
Defined.

(** X9.  Whatever the two loops are given, every message a run hands to a
    writer is an outcome event: a failure event with reason
    INSUFFICIENT_INVENTORY on order-failed or a success event on
    order-succeeded, keyed by the order identifier of its event and without
    headers.  The log of earlier writes is only extended, turn by turn: a
    turn of the order loop adds at most one write, a turn of the album loop
    adds none. *)
Theorem X9_runs_write_only_outcome_events :
  forall (unmarshalOrder : string -> error + OrderMessage)
         (unmarshalAlbum : string -> error + AlbumCreatedEvent)
         (ds : list Delivery) (w : World),
  exists per_turn : list (list WriteCall),
    writes (fst (runConsumers unmarshalOrder unmarshalAlbum ds w))
    = (writes w ++ concat per_turn)%list
    /\ Forall2
         (fun d new =>
            Forall outcome_write new
            /\ match d with
               | OrderCreated _ _ => (length new <= 1)%nat
               | AlbumCreated _ _ => new = []
               end)
         ds per_turn.
Proof.
  intros unmarshalOrder unmarshalAlbum ds.
  induction ds as [|d ds IH]; intros w.
  { exists []. cbn. rewrite app_nil_r. split; [done | constructor]. }
  rewrite runConsumers_cons.
  destruct (IH (fst (consumerTurn unmarshalOrder unmarshalAlbum d w))) as (rest & Hw2 & Hall).
  destruct (consumerTurn_writes unmarshalOrder unmarshalAlbum d w) as (n1 & Hw1 & Hf1 & Hl1).
  exists (n1 :: rest). split.
  - rewrite Hw2, Hw1. cbn [concat]. by rewrite app_assoc.
  - constructor; [| exact Hall]. split; [exact Hf1 |].
    destruct d as [env msg | env msg]; [exact Hl1 |].
    rewrite consumerTurn_album in Hw1.
    destruct (processAlbumCreatedEvent_cases unmarshalAlbum env w msg) as (Hsame & _).
    cbn zeta in Hsame. rewrite Hsame in Hw1.
    destruct n1 as [|c n1]; [done |].
    apply (f_equal length) in Hw1. rewrite length_app in Hw1. cbn in Hw1. lia.
Qed.

(** ** The synchronous reservation, run alone *)





(** ** The endpoints *)

Lemma getInventory_found env w albumID r :
  f_query env = None -> inventory w !! albumID = Some r ->
  getInventory env w albumID =
    (w, mkResponse StatusOK
          (InventoryBody (mkInventory albumID (quantity_available r) (last_updated r)))).
Proof. intros Hq Hrow. unfold getInventory, select_row. by rewrite Hq, Hrow. Qed.

(** The rows the loop has appended when it ends without an error. *)
Lemma scanRows_listed lf k rows acc items :
  scanRows lf k rows acc = Listed items ->
  items =
    (acc ++ ((fun ar => mkInventory (fst ar) (quantity_available (snd ar))
                          (last_updated (snd ar))) <$> rows))%list.
Proof.
  revert k acc. induction rows as [|[a r] rows IH]; intros k acc; cbn.
  - destruct (lf_next lf k); [done |]. intros [= <-]. by rewrite app_nil_r.
  - destruct (lf_next lf k); [done |]. destruct (lf_scan lf k); [done |].
    intros Hrest. rewrite (IH _ _ Hrest). by rewrite <- app_assoc.
Qed.

Lemma scanRows_calm k rows acc :
  exists items, scanRows calmList k rows acc = Listed items.
Proof.
  revert k acc. induction rows as [|[a r] rows IH]; intros k acc; cbn; [by eauto |].
  apply IH.
Qed.

(** X10.  A PUT that is accepted and executed stores exactly the requested
    quantity (of any sign) with what the column keeps of the time of the
    request, answers 200 with that quantity and the time of the request
    itself, and leaves every other row alone; a GET of the same album that
    follows answers 200 with the same quantity and the time as the column
    kept it. *)
Theorem X10_put_then_get :
  forall (bindUpdate : string -> error + UpdateInventoryRequest)
         (asTimestamp : Time -> Time) (env env' : Faults)
         (w : World) (albumID body : string) (req : UpdateInventoryRequest),
    albumID <> EmptyString ->
    bindUpdate body = inr req ->
    f_exec env = None ->
    f_query env' = None ->
    snd (updateInventory bindUpdate asTimestamp env w albumID body) =
      mkResponse 200
        (InventoryBody (mkInventory albumID (req_QuantityAvailable req) (now env)))
    /\ inventory (fst (updateInventory bindUpdate asTimestamp env w albumID body)) !! albumID =
         Some (mkRow (req_QuantityAvailable req) (asTimestamp (now env)))
    /\ (forall other, other <> albumID ->
          inventory (fst (updateInventory bindUpdate asTimestamp env w albumID body)) !! other =
          inventory w !! other)
    /\ snd (getInventory env'
              (fst (updateInventory bindUpdate asTimestamp env w albumID body)) albumID) =
         mkResponse 200
           (InventoryBody
              (mkInventory albumID (req_QuantityAvailable req) (asTimestamp (now env)))).
Proof.
  intros bindUpdate asTimestamp env env' w albumID body req Hid Hbind Hexec Hq.
  assert (updateInventory bindUpdate asTimestamp env w albumID body =
          (set_inventory
             (<[albumID := mkRow (req_QuantityAvailable req) (asTimestamp (now env))]>
                (inventory w)) w,
           mkResponse 200
             (InventoryBody (mkInventory albumID (req_QuantityAvailable req) (now env)))))
    as Hres.
  { unfold updateInventory. apply String.eqb_neq in Hid. by rewrite Hid, Hbind, Hexec. }
  rewrite Hres. cbn [fst snd set_inventory inventory]. split_and!.
  - done.
  - by rewrite lookup_insert_eq.
  - intros other Hne. by rewrite lookup_insert_ne.
  - rewrite (getInventory_found env' _ albumID
               (mkRow (req_QuantityAvailable req) (asTimestamp (now env))));
      [done | done |]. cbn. by rewrite lookup_insert_eq.
Qed.

(** X11.  [updateInventory] answers 200 exactly when the path identifier
    is not empty, the body binds and the statement is executed; in every
    other case it answers 400 or 500 and changes nothing. *)
Theorem X11_update_changes_nothing_unless_200 :
  forall (bindUpdate : string -> error + UpdateInventoryRequest)
         (asTimestamp : Time -> Time) (env : Faults)
         (w : World) (albumID body : string),
    ((r_status (snd (updateInventory bindUpdate asTimestamp env w albumID body)) =? 200) = true <->
     albumID <> EmptyString /\ (exists req, bindUpdate body = inr req) /\ f_exec env = None)
    /\ ((r_status (snd (updateInventory bindUpdate asTimestamp env w albumID body)) =? 200) = false ->
        fst (updateInventory bindUpdate asTimestamp env w albumID body) = w
        /\ (r_status (snd (updateInventory bindUpdate asTimestamp env w albumID body)) = 400 \/
            r_status (snd (updateInventory bindUpdate asTimestamp env w albumID body)) = 500))
    /\ ((albumID = EmptyString \/ exists err, bindUpdate body = inl err) ->
        r_status (snd (updateInventory bindUpdate asTimestamp env w albumID body)) = 400).
Proof.
  intros bindUpdate asTimestamp env w albumID body. unfold updateInventory.
  destruct (String.eqb_spec albumID EmptyString) as [Hid|Hid]; cbn.
  { split_and!; [| by auto | done]. split; [done | by intros (? & _)]. }
  destruct (bindUpdate body) as [err|req] eqn:Hbind; cbn.
  { split_and!; [| by auto | done]. split; [done | by intros (_ & [? ?] & _)]. }
  destruct (f_exec env) as [err|] eqn:Hexec; cbn.
  - split_and!; [| by auto |].
    + split; [done | by intros (_ & _ & ?)].
    + intros [? | [? ?]]; done.
  - split_and!; [| done |].
    + split; [| done]. intros _. split_and!; [done | by eauto | done].
    + intros [? | [? ?]]; done.
Qed.

(** X12.  Through the route table: a request whose Client-Type is not
    admin gets 403 on the listing and on PUT, and nothing changes; the GET
    of one album is served as [getInventory] serves it, whatever the
    Client-Type; and the tables differ after a request only when it was a
    PUT with Client-Type admin. *)
Theorem X12_admin_routes_are_guarded :
  forall (bindUpdate : string -> error + UpdateInventoryRequest)
         (asTimestamp : Time -> Time) (env : Faults)
         (lf : ListFaults) (w : World) (clientType : string),
    (clientType <> "admin" ->
     serve bindUpdate asTimestamp env lf w clientType GetAllInventoryRoute =
       (w, Item (mkResponse 403 (ErrorBody "Forbidden: Admin privileges required")))
     /\ forall albumId body,
          serve bindUpdate asTimestamp env lf w clientType (PutInventoryRoute albumId body) =
            (w, Item (mkResponse 403 (ErrorBody "Forbidden: Admin privileges required"))))
    /\ (forall albumId,
          serve bindUpdate asTimestamp env lf w clientType (GetInventoryRoute albumId) =
            (w, Item (snd (getInventory env w albumId))))
    /\ (forall route,
          fst (serve bindUpdate asTimestamp env lf w clientType route) = w \/
          clientType = "admin" /\ exists albumId body, route = PutInventoryRoute albumId body).
Proof.
  intros bindUpdate asTimestamp env lf w clientType. split_and!.
  - intros Hna. apply String.eqb_neq in Hna. unfold serve, requireAdmin.
    rewrite Hna. by split.
  - intros albumId. unfold serve, getInventory.
    destruct (select_row _ _ _) as [err|r]; [| done].
    by destruct (decide (err = sqlErrNoRows)).
  - intros route. unfold serve, requireAdmin.
    destruct route as [albumId| |albumId body|].
    + left. unfold getInventory. destruct (select_row _ _ _) as [err|r]; [| done].
      by destruct (decide (err = sqlErrNoRows)).
    + left. destruct (String.eqb clientType "admin"); [| done].
      unfold getAllInventory. destruct (lf_query lf); [done |].
      by destruct (scanRows _ _ _ _).
    + destruct (String.eqb_spec clientType "admin") as [->|Hna]; [| by left].
      right. split; [done | by eauto].
    + by left.
Qed.

(** X13.  [getAllInventory] never changes the tables.  Whenever it answers
    200 its list is the table: one entry per row, no album twice, and an
    entry is in the list exactly when the table holds that row; for an
    empty table the list is empty.  When no call fails it answers 200. *)
Theorem X13_listing_is_the_table :
  forall (lf : ListFaults) (w : World),
    fst (getAllInventory lf w) = w
    /\ (forall items,
          snd (getAllInventory lf w) = mkListResponse 200 (InventoryListBody items) ->
          length items = size (inventory w)
          /\ NoDup (inv_AlbumID <$> items)
          /\ (forall a q t,
                mkInventory a q t ∈ items <-> inventory w !! a = Some (mkRow q t)))
    /\ (exists items,
          getAllInventory calmList w = (w, mkListResponse 200 (InventoryListBody items))).
Proof.
  intros lf w. split_and!.
  - unfold getAllInventory. destruct (lf_query lf); [done |].
    by destruct (scanRows _ _ _ _).
  - intros items. unfold getAllInventory. destruct (lf_query lf); [done |].
    destruct (scanRows lf 0 (map_to_list (inventory w)) []) as [e|e|l] eqn:Hscan; try done.
    cbn. intros [= <-]. apply scanRows_listed in Hscan. cbn in Hscan. subst l.
    split_and!.
    + by rewrite length_fmap, length_map_to_list.
    + rewrite <- list_fmap_compose.
      assert ((inv_AlbumID ∘ (fun ar : string * Row =>
                 mkInventory (fst ar) (quantity_available (snd ar)) (last_updated (snd ar))))
              <$> map_to_list (inventory w) = (map_to_list (inventory w)).*1) as ->.
      { by apply list_fmap_ext. }
      apply NoDup_fst_map_to_list.
    + intros a q t. rewrite list_elem_of_fmap. split.
      * intros ([a' [q' t']] & [= -> -> ->] & Hin). by apply elem_of_map_to_list in Hin.
      * intros Hrow. exists (a, mkRow q t). split; [done |]. by apply elem_of_map_to_list.
  - destruct (scanRows_calm 0 (map_to_list (inventory w)) []) as [items Hscan].
    exists items. unfold getAllInventory. cbn. by rewrite Hscan.
Qed.

Lemma X10_put_then_get_witness :
  snd (updateInventory SampleRequests.bindUpdate SampleRequests.asTimestamp
         (calm 1234567) (Sample.shelf 2) "newAlbum1" "quantityAvailable: 25") =
  mkResponse 200 (InventoryBody (mkInventory "newAlbum1" 25 1234567))
  /\ snd (getInventory (calm 1240000)
            (fst (updateInventory SampleRequests.bindUpdate SampleRequests.asTimestamp
                    (calm 1234567) (Sample.shelf 2) "newAlbum1" "quantityAvailable: 25"))
            "newAlbum1") =
     mkResponse 200 (InventoryBody (mkInventory "newAlbum1" 25 1234000)).
Proof.
  destruct (X10_put_then_get SampleRequests.bindUpdate SampleRequests.asTimestamp
              (calm 1234567) (calm 1240000) (Sample.shelf 2)
              "newAlbum1" "quantityAvailable: 25" (mkUpdateInventoryRequest 25)
              ltac:(discriminate) eq_refl eq_refl eq_refl) as (Hput & _ & _ & Hget).
  split; [exact Hput | exact Hget].
Defined.

(** ** The broker address *)

Lemma afterScheme_scheme scheme rest :
  ":"%char ∉ list_ascii_of_string scheme ->
  afterScheme (scheme ++ "://" ++ rest)%string = Some rest.
Proof.
  induction scheme as [|c scheme IH]; intros Hno; [done |].
  cbn in Hno. apply not_elem_of_cons in Hno as [Hc Hrest].
  change ((String c scheme ++ "://" ++ rest)%string)
    with (String c (scheme ++ "://" ++ rest)%string).
  cbn [afterScheme]. rewrite (IH Hrest).
  destruct (Ascii.ascii_dec c ":"%char) as [->|Hne]; [done |].
  destruct c as [[] [] [] [] [] [] [] []]; try done.
  all: by destruct (scheme ++ "://" ++ rest)%string as [|[[] [] [] [] [] [] [] []] [|? ?]].
Qed.

Lemma afterScheme_none v :
  "/"%char ∉ list_ascii_of_string v -> afterScheme v = None.
Proof.
  induction v as [|c v IH]; intros Hno; [done |].
  cbn in Hno. apply not_elem_of_cons in Hno as [Hc Hrest].
  cbn [afterScheme]. rewrite (IH Hrest).
  destruct v as [|d v]; [by destruct c as [[] [] [] [] [] [] [] []] |].
  cbn in Hrest. apply not_elem_of_cons in Hrest as [Hd _].
  destruct (Ascii.ascii_dec d "/"%char) as [->|Hne]; [done |].
  destruct c as [[] [] [] [] [] [] [] []]; try done.
  destruct d as [[] [] [] [] [] [] [] []]; try done.
Qed.

(** X14.  The broker address [main] uses: localhost:9092 when KAFKA_BROKER
    is empty; for a value made of a scheme without a colon, [://] and a
    rest, the rest; and a non-empty value without a slash as it is. *)
Theorem X14_broker_address :
  kafkaBrokerAddress EmptyString = "localhost:9092"
  /\ (forall scheme rest,
        ":"%char ∉ list_ascii_of_string scheme ->
        kafkaBrokerAddress (scheme ++ "://" ++ rest)%string = rest)
  /\ (forall v,
        v <> EmptyString -> "/"%char ∉ list_ascii_of_string v ->
        kafkaBrokerAddress v = v).
Proof.
  split_and!.
  - reflexivity.
  - intros scheme rest Hno. unfold kafkaBrokerAddress.
    assert ((scheme ++ "://" ++ rest)%string <> EmptyString) as Hne.
    { by destruct scheme. }
    apply String.eqb_neq in Hne. rewrite Hne. by rewrite (afterScheme_scheme _ _ Hno).
  - intros v Hne Hno. unfold kafkaBrokerAddress.
    apply String.eqb_neq in Hne. rewrite Hne. by rewrite (afterScheme_none _ Hno).
Qed.

(** ** Trace headers *)

Lemma extract_lookup (headers : list Header) (carrier : gmap string string) key :
  foldl (fun c h => <[h_Key h := h_Value h]> c) carrier headers !! key =
  match lastHeader key headers with
  | Some v => Some v
  | None => carrier !! key
  end.
Proof.
  revert carrier. induction headers as [|h headers IH]; intros carrier; [done |].
  cbn [foldl lastHeader]. rewrite IH.
  destruct (lastHeader key headers) as [v|]; [done |].
  destruct (String.eqb_spec (h_Key h) key) as [<-|Hne].
  - by rewrite lookup_insert_eq.
  - by rewrite lookup_insert_ne.
Qed.

Lemma lastHeader_absent key (headers : list Header) :
  key ∉ h_Key <$> headers -> lastHeader key headers = None.
Proof.
  induction headers as [|h headers IH]; [done |].
  cbn. intros [Hh Hrest]%not_elem_of_cons. rewrite (IH Hrest).
  destruct (String.eqb_spec (h_Key h) key); [congruence | done].
Qed.

Lemma lastHeader_unique key value (headers : list Header) :
  NoDup (h_Key <$> headers) ->
  lastHeader key headers = Some value <-> mkHeader key value ∈ headers.
Proof.
  induction headers as [|h headers IH]; cbn.
  - intros _. split; [done | by intros ?%elem_of_nil].
  - intros [Hfresh Hnodup]%NoDup_cons. specialize (IH Hnodup). split.
    + destruct (lastHeader key headers) as [v|] eqn:Hlast.
      * intros [= ->]. apply list_elem_of_further. by apply IH.
      * destruct (String.eqb_spec (h_Key h) key) as [<-|Hne]; [| done].
        intros [= <-]. destruct h. apply list_elem_of_here.
    + intros [<- | Hin]%elem_of_cons.
      * cbn. rewrite lastHeader_absent by done. by rewrite String.eqb_refl.
      * apply IH in Hin. by rewrite Hin.
Qed.

(** X15.  The headers [InjectTraceInfoToKafkaMessage] makes from a carrier,
    in whatever order the map is ranged over, give the same carrier back
    when [ExtractTraceInfoFromKafkaMessage] reads them. *)
Theorem X15_trace_headers_round_trip :
  forall (carrier : gmap string string) (headers : list Header),
    Permutation headers (InjectTraceInfoToKafkaMessage carrier) ->
    ExtractTraceInfoFromKafkaMessage headers = carrier.
Proof.
  intros carrier headers Hperm. apply map_eq. intros key.
  unfold ExtractTraceInfoFromKafkaMessage. rewrite extract_lookup, lookup_empty.
  assert (NoDup (h_Key <$> headers)) as Hnodup.
  { rewrite Hperm. unfold InjectTraceInfoToKafkaMessage. rewrite <- list_fmap_compose.
    apply NoDup_fst_map_to_list. }
  apply option_eq. intros value.
  assert (lastHeader key headers = Some value <-> carrier !! key = Some value) as Hiff.
  { rewrite (lastHeader_unique _ _ _ Hnodup), Hperm.
    unfold InjectTraceInfoToKafkaMessage. rewrite list_elem_of_fmap. split.
    - intros ([k v] & [= -> ->] & Hin). by apply elem_of_map_to_list in Hin.
    - intros Hin. exists (key, value). split; [done |]. by apply elem_of_map_to_list. }
  destruct (lastHeader key headers) as [v|].
  - rewrite <- Hiff. split; congruence.
  - rewrite <- Hiff. done.
Qed.

Lemma X15_trace_headers_round_trip_witness :
  ExtractTraceInfoFromKafkaMessage
    (InjectTraceInfoToKafkaMessage
       {[ "traceparent" := "00-0af7651916cd43dd8448eb211c80319c-b7ad6b7169203331-01" ]}) =
  {[ "traceparent" := "00-0af7651916cd43dd8448eb211c80319c-b7ad6b7169203331-01" ]}.
Proof.
  exact (X15_trace_headers_round_trip _ _ (Permutation_refl _)).
Defined.

(** X16.  What [ExtractTraceInfoFromKafkaMessage] holds for a key is the
    value of the last header with that key: a later header replaces an
    earlier one, and a key that no header has is absent. *)
Theorem X16_extract_keeps_the_last_header :
  forall (headers : list Header) (key : string),
    ExtractTraceInfoFromKafkaMessage headers !! key = lastHeader key headers
    /\ (forall value,
          ExtractTraceInfoFromKafkaMessage (headers ++ [mkHeader key value]) !! key
          = Some value)
    /\ (key ∉ h_Key <$> headers ->
        ExtractTraceInfoFromKafkaMessage headers !! key = None).
Proof.
  intros headers key.
  assert (forall hs, ExtractTraceInfoFromKafkaMessage hs !! key = lastHeader key hs) as Hlast.
  { intros hs. unfold ExtractTraceInfoFromKafkaMessage.
    rewrite extract_lookup, lookup_empty. by destruct (lastHeader key hs). }
  split_and!.
  - apply Hlast.
  - intros value. unfold ExtractTraceInfoFromKafkaMessage.
    rewrite foldl_app. cbn. by rewrite lookup_insert_eq.
  - intros Habs. rewrite Hlast. by apply lastHeader_absent.
Qed.

(** ** The album service *)

Section AlbumFacts.

Import AlbumService.

Variable Price : Type.
Variable priceAboveZero : Price -> bool.
Variable decodeAlbum : string -> error + Album Price.
Variable validationError : Album Price -> error.
Variable marshalEvent : AlbumCreatedEvent -> error + string.
Variable idOfText : string -> error + Z.
Variable kept : AlbumRow Price -> AlbumRow Price.

(** A bound album has passed the binding tags. *)
Lemma ShouldBindJSON_valid body a :
  ShouldBindJSON priceAboveZero decodeAlbum validationError body = inr a ->
  decodeAlbum body = inr a /\ validAlbum priceAboveZero a = true.
Proof.
  unfold ShouldBindJSON. destruct (decodeAlbum body) as [err|a0]; [done |].
  destruct (validAlbum priceAboveZero a0) eqn:Hvalid; [| done].
  by intros [= <-].
Qed.

Lemma ShouldBindJSON_bound body a :
  decodeAlbum body = inr a -> validAlbum priceAboveZero a = true ->
  ShouldBindJSON priceAboveZero decodeAlbum validationError body = inr a.
Proof. intros Hdec Hvalid. unfold ShouldBindJSON. by rewrite Hdec, Hvalid. Qed.

Lemma validAlbum_quantity a q :
  validAlbum priceAboveZero a = true -> a_InitialQuantity a = Some q -> 0 <= q.
Proof.
  unfold validAlbum. intros Hvalid Hq. rewrite Hq in Hvalid.
  apply andb_true_iff in Hvalid as [_ Hle]. lia.
Qed.

Lemma getAlbum_found env (st : Store Price) id n row :
  k_query env = None -> idOfText id = inr n -> albums st !! n = Some row ->
  getAlbum idOfText env st id =
    (st, mkReply StatusOK (AlbumReply (albumOfRow n row))).
Proof.
  intros Hq Hid Hrow. unfold getAlbum, selectAlbum. by rewrite Hq, Hid, Hrow.
Qed.

Lemma getAlbum_missing env (st : Store Price) id n :
  k_query env = None -> idOfText id = inr n -> albums st !! n = None ->
  getAlbum idOfText env st id =
    (st, mkReply StatusNotFound (ErrorReply "Album not found")).
Proof.
  intros Hq Hid Hrow. unfold getAlbum, selectAlbum. rewrite Hq, Hid, Hrow.
  by destruct (decide (sqlErrNoRows = sqlErrNoRows)).
Qed.

(** What a statement on one id does to the table. *)
Lemma execOnId_cases env (st : Store Price) id change table rows :
  execOnId idOfText env st id change = inr (table, rows) ->
  k_exec env = None /\
  exists n, idOfText id = inr n /\
    ((exists row, albums st !! n = Some row /\ table = change n (albums st) /\ rows = 1)
     \/ (albums st !! n = None /\ table = albums st /\ rows = 0)).
Proof.
  unfold execOnId. destruct (k_exec env); [done |].
  destruct (idOfText id) as [err|n]; [done |].
  destruct (albums st !! n) as [row|] eqn:Hrow; intros [= <- <-].
  - split; [done |]. exists n. split; [done |]. left. by exists row.
  - split; [done |]. exists n. split; [done |]. by right.
Qed.

(** The loop of [getAllAlbums] lists the rows it was given, in their
    order, after what was listed before. *)
Lemma scanAlbums_listed lf k (rows : list (Z * AlbumRow Price)) listed items :
  scanAlbums lf k rows listed = AlbumsListed items ->
  items = (listed ++ ((fun nr => albumOfRow (fst nr) (snd nr)) <$> rows))%list.
Proof.
  revert k listed. induction rows as [|[n row] rest IH]; intros k listed; cbn.
  - destruct (lf_next lf k); [done |]. intros [= <-]. by rewrite app_nil_r.
  - destruct (lf_next lf k); [done |]. destruct (lf_scan lf k); [done |].
    intros Hscan. apply IH in Hscan. by rewrite <- app_assoc in Hscan.
Qed.

Lemma scanAlbums_calm k (rows : list (Z * AlbumRow Price)) listed :
  exists items, scanAlbums calmList k rows listed = AlbumsListed items.
Proof.
  revert k listed. induction rows as [|[n row] rest IH]; intros k listed; cbn.
  - by eexists.
  - apply IH.
Qed.

End AlbumFacts.

Section AlbumRuns.

Import AlbumService.

(** X17.  [createAlbum] answers 201 exactly when the body decodes to an
    album that passes the binding tags and the insert returns an id.  Then
    the row is stored under that id and the reply is the album with the id
    in decimal, whether or not the event could be marshalled or published.
    In every other case the store is as before: nothing is stored and
    nothing is published.  A call publishes at most one message. *)
Theorem X17_create_album_replies :
  forall (Price : Type) (priceAboveZero : Price -> bool)
         (decodeAlbum : string -> error + Album Price)
         (validationError : Album Price -> error)
         (marshalEvent : AlbumCreatedEvent -> error + string)
         (kept : AlbumRow Price -> AlbumRow Price)
         (env : Calls) (st : Store Price) (body : string),
    let result :=
      createAlbum priceAboveZero decodeAlbum validationError marshalEvent kept env st body in
    (y_status (snd result) = StatusCreated <->
     exists a id,
       decodeAlbum body = inr a /\ validAlbum priceAboveZero a = true /\
       k_returning env = inr id)
    /\ (y_status (snd result) <> StatusCreated -> fst result = st)
    /\ (forall a id,
          decodeAlbum body = inr a -> validAlbum priceAboveZero a = true ->
          k_returning env = inr id ->
          albums (fst result) = <[id := rowOf kept a]> (albums st)
          /\ y_body (snd result) = AlbumReply (withID (Itoa id) a))
    /\ (exists extra,
          published (fst result) = (published st ++ extra)%list /\ (length extra <= 1)%nat).
Proof.
  intros Price priceAboveZero decodeAlbum validationError marshalEvent kept env st body.
  cbn zeta. unfold createAlbum, ShouldBindJSON.
  destruct (decodeAlbum body) as [err|a0] eqn:Hdec.
  { cbn. split_and!.
    - split; [done |]. by intros (a & id & Habs & _).
    - done.
    - done.
    - exists []. split; [by rewrite app_nil_r | cbn; lia]. }
  destruct (validAlbum priceAboveZero a0) eqn:Hvalid.
  2: { cbn. split_and!.
    - split; [done |]. intros (a & id & [= <-] & Habs & _). congruence.
    - done.
    - intros a id [= <-] Habs. congruence.
    - exists []. split; [by rewrite app_nil_r | cbn; lia]. }
  destruct (k_returning env) as [err|id0] eqn:Hret.
  { cbn. split_and!.
    - split; [done |]. by intros (a & id & _ & _ & Habs).
    - done.
    - done.
    - exists []. split; [by rewrite app_nil_r | cbn; lia]. }
  destruct (marshalEvent _) as [err|eventJSON]; cbn.
  - split_and!.
    + split; [| done]. intros _. by exists a0, id0.
    + done.
    + by intros a id [= <-] _ [= <-].
    + exists []. split; [by rewrite app_nil_r | cbn; lia].
  - split_and!.
    + split; [| done]. intros _. by exists a0, id0.
    + done.
    + by intros a id [= <-] _ [= <-].
    + eexists [_]. split; [reflexivity | cbn; lia].
Qed.

(** X18.  An album created with initial quantity [q] (or none) is stocked
    with exactly [q] (or 0): when the message [createAlbum] wrote is
    delivered to [processAlbumCreatedEvent] and the item has no row yet, the
    row inserted holds the requested quantity, the binding having refused
    negative ones, and [getInventory] then reports it.  The message's key is
    the album's id. *)
Theorem X18_created_album_is_stocked_as_requested :
  forall (Price : Type) (priceAboveZero : Price -> bool)
         (decodeAlbum : string -> error + Album Price)
         (validationError : Album Price -> error)
         (marshalEvent : AlbumCreatedEvent -> error + string)
         (kept : AlbumRow Price -> AlbumRow Price)
         (unmarshalAlbum : string -> error + AlbumCreatedEvent)
         (env : Calls) (st : Store Price) (body : string) (a : Album Price) (id : Z)
         (payload : string) (envI envQ : Faults) (w : World) (partition offset : Z),
    ShouldBindJSON priceAboveZero decodeAlbum validationError body = inr a ->
    k_returning env = inr id ->
    marshalEvent
      (mkAlbumCreatedEvent (Itoa id) (a_Title a) (a_Artist a) (k_now env)
         (a_InitialQuantity a)) = inr payload ->
    unmarshalAlbum payload =
      inr (mkAlbumCreatedEvent (Itoa id) (a_Title a) (a_Artist a) (k_now env)
             (a_InitialQuantity a)) ->
    inventory w !! Itoa id = None ->
    f_exec envI = None ->
    f_query envQ = None ->
    exists m,
      published
        (fst (createAlbum priceAboveZero decodeAlbum validationError marshalEvent kept env st body))
      = (published st ++ [mkPublication m (k_write env)])%list
      /\ m_Key m = Itoa id
      /\ processAlbumCreatedEvent unmarshalAlbum envI w (delivered partition offset m)
         = (set_inventory
              (<[Itoa id := mkRow (default 0 (a_InitialQuantity a)) (now envI)]> (inventory w))
              w, None)
      /\ snd (getInventory envQ
                (fst (processAlbumCreatedEvent unmarshalAlbum envI w
                        (delivered partition offset m)))
                (Itoa id))
         = mkResponse StatusOK
             (InventoryBody
                (mkInventory (Itoa id) (default 0 (a_InitialQuantity a)) (now envI))).
Proof.
  intros Price priceAboveZero decodeAlbum validationError marshalEvent kept unmarshalAlbum
         env st body a id payload envI envQ w partition offset
         Hbind Hret Hmarshal Hunmarshal Habsent Hexec Hquery.
  destruct (ShouldBindJSON_valid _ _ _ _ _ _ Hbind) as [_ Hvalid].
  eexists. unfold createAlbum. rewrite Hbind, Hret. cbn [withID a_ID a_Title a_Artist
    a_InitialQuantity]. rewrite Hmarshal. cbn [fst published].
  split; [reflexivity |]. split; [reflexivity |].
  assert (processAlbumCreatedEvent unmarshalAlbum envI w
            (delivered partition offset
               (mkMessage 0 0 (Itoa id) payload
                  (InjectTraceInfoToKafkaMessage (k_carrier env))))
          = (set_inventory
               (<[Itoa id := mkRow (default 0 (a_InitialQuantity a)) (now envI)]> (inventory w))
               w, None)) as Hboot.
  { unfold processAlbumCreatedEvent, delivered. cbn [m_Value].
    rewrite Hunmarshal, Hexec. cbn [ac_InitialQuantity ac_AlbumID].
    unfold insert_on_conflict_do_nothing. rewrite Habsent.
    destruct (a_InitialQuantity a) as [q|] eqn:Hq; [| done].
    pose proof (validAlbum_quantity _ _ _ _ Hvalid Hq).
    destruct (Z.leb_spec 0 q); [done | lia]. }
  split; [exact Hboot |].
  rewrite Hboot. cbn [fst]. unfold getInventory, select_row. rewrite Hquery.
  cbn [inventory set_inventory]. by rewrite lookup_insert_eq.
Qed.

Lemma X18_created_album_is_stocked_as_requested_witness :
  exists m,
    published
      (fst (createAlbum SampleAlbums.priceAboveZero SampleAlbums.decodeAlbum
              SampleAlbums.validationError SampleAlbums.marshalEvent SampleAlbums.kept
              SampleAlbums.request SampleAlbums.empty "Blue by Ann, 5 in stock"))
    = (published SampleAlbums.empty ++ [mkPublication m (k_write SampleAlbums.request)])%list
    /\ m_Key m = Itoa 7
    /\ processAlbumCreatedEvent SampleAlbums.unmarshalAlbum (calm 30) (mkWorld ∅ None [])
         (delivered 2 41 m)
       = (set_inventory
            (<[Itoa 7 := mkRow (default 0 (Some 5)) (now (calm 30))]>
               (inventory (mkWorld ∅ None [])))
            (mkWorld ∅ None []), None)
    /\ snd (getInventory (calm 31)
              (fst (processAlbumCreatedEvent SampleAlbums.unmarshalAlbum (calm 30)
                      (mkWorld ∅ None []) (delivered 2 41 m)))
              (Itoa 7))
       = mkResponse StatusOK
           (InventoryBody (mkInventory (Itoa 7) (default 0 (Some 5)) (now (calm 30)))).
Proof.
  exact (X18_created_album_is_stocked_as_requested Z SampleAlbums.priceAboveZero
           SampleAlbums.decodeAlbum SampleAlbums.validationError SampleAlbums.marshalEvent
           SampleAlbums.kept SampleAlbums.unmarshalAlbum SampleAlbums.request SampleAlbums.empty
           "Blue by Ann, 5 in stock"
           (mkAlbum EmptyString "Blue" "Ann" 999 2024 "Jazz" (Some 5)) 7 "album 7"
           (calm 30) (calm 31) (mkWorld ∅ None []) 2 41
           eq_refl eq_refl eq_refl eq_refl (lookup_empty _) eq_refl eq_refl).
Defined.

(** X19.  [getAlbum] on the id that [createAlbum] put in its reply finds
    the album just created.  The body of [createAlbum] has the fields as
    the request gave them, the initial quantity among them; the body of
    [getAlbum] has the fields as the columns keep them, and never an
    initial quantity.  This holds also when the event could not be
    published. *)
Theorem X19_get_after_create :
  forall (Price : Type) (priceAboveZero : Price -> bool)
         (decodeAlbum : string -> error + Album Price)
         (validationError : Album Price -> error)
         (marshalEvent : AlbumCreatedEvent -> error + string)
         (idOfText : string -> error + Z)
         (kept : AlbumRow Price -> AlbumRow Price)
         (env envG : Calls) (st : Store Price) (body : string) (a : Album Price) (id : Z),
    ShouldBindJSON priceAboveZero decodeAlbum validationError body = inr a ->
    k_returning env = inr id ->
    idOfText (Itoa id) = inr id ->
    k_query envG = None ->
    let created :=
      createAlbum priceAboveZero decodeAlbum validationError marshalEvent kept env st body in
    snd created =
      mkReply StatusCreated
        (AlbumReply
           (mkAlbum (Itoa id) (a_Title a) (a_Artist a) (a_Price a) (a_ReleaseYear a)
              (a_Genre a) (a_InitialQuantity a)))
    /\ getAlbum idOfText envG (fst created) (Itoa id) =
         (fst created,
          mkReply StatusOK (AlbumReply (albumOfRow id (rowOf kept a)))).
Proof.
  intros Price priceAboveZero decodeAlbum validationError marshalEvent idOfText kept
         env envG st body a id Hbind Hret Hid Hquery. cbn zeta.
  assert (albums (fst (createAlbum priceAboveZero decodeAlbum validationError marshalEvent kept
                         env st body)) !! id = Some (rowOf kept a)) as Hrow.
  { unfold createAlbum. rewrite Hbind, Hret.
    destruct (marshalEvent _); cbn; by rewrite lookup_insert_eq. }
  split.
  - unfold createAlbum. rewrite Hbind, Hret. by destruct (marshalEvent _).
  - by rewrite (getAlbum_found _ idOfText envG _ _ id (rowOf kept a)).
Qed.

Lemma X19_get_after_create_witness :
  snd (createAlbum SampleAlbums.priceAboveZero SampleAlbums.decodeAlbum
         SampleAlbums.validationError SampleAlbums.marshalEvent SampleAlbums.kept
         SampleAlbums.request SampleAlbums.empty "Blue by Ann, 5 in stock")
  = mkReply StatusCreated (AlbumReply (mkAlbum "7" "Blue" "Ann" 999 2024 "Jazz" (Some 5)))
  /\ snd (getAlbum SampleAlbums.idOfText SampleAlbums.request
            (fst (createAlbum SampleAlbums.priceAboveZero SampleAlbums.decodeAlbum
                    SampleAlbums.validationError SampleAlbums.marshalEvent SampleAlbums.kept
                    SampleAlbums.request SampleAlbums.empty "Blue by Ann, 5 in stock"))
            "7")
     = mkReply StatusOK (AlbumReply (mkAlbum "7" "Blue" "Ann" 999 2024 "Jazz" None)).
Proof.
  destruct (X19_get_after_create Z SampleAlbums.priceAboveZero SampleAlbums.decodeAlbum
              SampleAlbums.validationError SampleAlbums.marshalEvent SampleAlbums.idOfText
              SampleAlbums.kept SampleAlbums.request SampleAlbums.request SampleAlbums.empty
              "Blue by Ann, 5 in stock"
              (mkAlbum EmptyString "Blue" "Ann" 999 2024 "Jazz" (Some 5)) 7
              eq_refl eq_refl eq_refl eq_refl) as [Hcreated Hget].
  split; [exact Hcreated |].
  exact (f_equal snd Hget).
Defined.

(** X20.  [deleteAlbum] publishes nothing and adds no row.  It answers 204
    only for an id that had a row, which is then gone, so that [getAlbum]
    on the same id answers 404; it answers 404 only for an id without a
    row, and then the store is as before. *)
Theorem X20_delete_album :
  forall (Price : Type) (idOfText : string -> error + Z)
         (env : Calls) (st : Store Price) (id : string),
    let result := deleteAlbum idOfText env st id in
    published (fst result) = published st
    /\ albums (fst result) ⊆ albums st
    /\ (y_status (snd result) = StatusNoContent ->
        exists n,
          idOfText id = inr n /\ is_Some (albums st !! n)
          /\ albums (fst result) = delete n (albums st)
          /\ forall envG, k_query envG = None ->
               snd (getAlbum idOfText envG (fst result) id)
               = mkReply StatusNotFound (ErrorReply "Album not found"))
    /\ (y_status (snd result) = StatusNotFound ->
        fst result = st /\ exists n, idOfText id = inr n /\ albums st !! n = None).
Proof.
  intros Price idOfText env st id. cbn zeta. unfold deleteAlbum.
  destruct (execOnId idOfText env st id (fun n t => delete n t)) as [err|[table rows]] eqn:Hexec.
  { cbn. by split_and!. }
  apply execOnId_cases in Hexec as (_ & n & Hid & Hcases).
  destruct Hcases as [(row & Hrow & -> & ->) | (Hrow & -> & ->)].
  - assert (delete n (albums st) ⊆ albums st) as Hsub by apply delete_subseteq.
    destruct (k_rows env); cbn.
    + by split_and!.
    + split_and!; [done | done | | done].
      intros _. exists n. split_and!; [done | by exists row | done |].
      intros envG Hquery.
      rewrite (getAlbum_missing _ idOfText envG _ id n Hquery Hid); [done |].
      cbn. apply lookup_delete_eq.
  - destruct (k_rows env); cbn.
    + by split_and!.
    + split_and!; [done | done | done |].
      intros _. split; [by destruct st | by exists n].
Qed.

(** X21.  [updateAlbum] publishes nothing and neither adds nor removes a
    row.  It answers 200 only for a body that binds and an id that had a
    row; the row then holds the fields of the body as the columns keep
    them, the body sent back carries the id as the path gave it, and
    [getAlbum] on the same path sends the row with the id in decimal.  When
    it answers 400 or 404 the store is as before. *)
Theorem X21_update_album :
  forall (Price : Type) (priceAboveZero : Price -> bool)
         (decodeAlbum : string -> error + Album Price)
         (validationError : Album Price -> error)
         (idOfText : string -> error + Z)
         (kept : AlbumRow Price -> AlbumRow Price)
         (env : Calls) (st : Store Price) (id body : string),
    let result :=
      updateAlbum priceAboveZero decodeAlbum validationError idOfText kept env st id body in
    published (fst result) = published st
    /\ dom (albums (fst result)) = dom (albums st)
    /\ (y_status (snd result) = StatusOK ->
        exists a n,
          ShouldBindJSON priceAboveZero decodeAlbum validationError body = inr a
          /\ idOfText id = inr n /\ is_Some (albums st !! n)
          /\ albums (fst result) = <[n := rowOf kept a]> (albums st)
          /\ y_body (snd result) = AlbumReply (withID id a)
          /\ forall envG, k_query envG = None ->
               snd (getAlbum idOfText envG (fst result) id)
               = mkReply StatusOK (AlbumReply (albumOfRow n (rowOf kept a))))
    /\ (y_status (snd result) = StatusBadRequest \/ y_status (snd result) = StatusNotFound ->
        fst result = st).
Proof.
  intros Price priceAboveZero decodeAlbum validationError idOfText kept env st id body.
  cbn zeta. unfold updateAlbum.
  destruct (ShouldBindJSON priceAboveZero decodeAlbum validationError body) as [err|a] eqn:Hbind.
  { cbn. split_and!; [done | done | done |]. done. }
  destruct (execOnId idOfText env st id (fun n t => <[n := rowOf kept a]> t))
    as [err|[table rows]] eqn:Hexec.
  { cbn. split_and!; [done | done | done |]. by intros [|]. }
  apply execOnId_cases in Hexec as (_ & n & Hid & Hcases).
  destruct Hcases as [(row & Hrow & -> & ->) | (Hrow & -> & ->)].
  - assert (dom (<[n := rowOf kept a]> (albums st)) = dom (albums st)) as Hdom.
    { apply dom_insert_lookup_L. by exists row. }
    destruct (k_rows env); cbn.
    + split_and!; [done | done | done |]. by intros [|].
    + split_and!; [done | done | | by intros [|]].
      intros _. exists a, n. split_and!; [done | done | by exists row | done | done |].
      intros envG Hquery.
      rewrite (getAlbum_found _ idOfText envG _ id n (rowOf kept a) Hquery Hid); [done |].
      cbn. apply lookup_insert_eq.
  - destruct (k_rows env); cbn.
    + split_and!; [done | done | done |]. by intros [|].
    + split_and!; [done | done | done |]. intros _. by destruct st.
Qed.

(** X22.  Every row of [albums] after a handler was there before or was
    written from the body of this request, which passed the binding tags:
    [createAlbum] and [updateAlbum] write no other row, and [deleteAlbum],
    [getAlbum] and [getAllAlbums] write none. *)
Theorem X22_rows_come_from_bound_bodies :
  forall (Price : Type) (priceAboveZero : Price -> bool)
         (decodeAlbum : string -> error + Album Price)
         (validationError : Album Price -> error)
         (marshalEvent : AlbumCreatedEvent -> error + string)
         (idOfText : string -> error + Z)
         (kept : AlbumRow Price -> AlbumRow Price)
         (env : Calls) (lf : ListFaults) (st : Store Price) (id body : string)
         (n : Z) (row : AlbumRow Price),
    (albums (fst (createAlbum priceAboveZero decodeAlbum validationError marshalEvent kept
                    env st body)) !! n = Some row
     \/ albums (fst (updateAlbum priceAboveZero decodeAlbum validationError idOfText kept
                       env st id body)) !! n = Some row ->
     albums st !! n = Some row
     \/ exists a,
          decodeAlbum body = inr a /\ validAlbum priceAboveZero a = true /\
          row = rowOf kept a)
    /\ (albums (fst (deleteAlbum idOfText env st id)) !! n = Some row
        \/ albums (fst (getAlbum idOfText env st id)) !! n = Some row
        \/ albums (fst (getAllAlbums lf st)) !! n = Some row ->
        albums st !! n = Some row).
Proof.
  intros Price priceAboveZero decodeAlbum validationError marshalEvent idOfText kept
         env lf st id body n row.
  split.
  - intros [Hrow | Hrow].
    + unfold createAlbum in Hrow.
      destruct (ShouldBindJSON priceAboveZero decodeAlbum validationError body)
        as [err|a] eqn:Hbind; [by left |].
      apply ShouldBindJSON_valid in Hbind as [Hdec Ha].
      destruct (k_returning env) as [err|m]; [by left |].
      assert (<[m := rowOf kept a]> (albums st) !! n = Some row) as Hin.
      { by destruct (marshalEvent _). }
      apply lookup_insert_Some in Hin as [[_ <-] | [_ Hold]]; [| by left].
      right. by exists a.
    + unfold updateAlbum in Hrow.
      destruct (ShouldBindJSON priceAboveZero decodeAlbum validationError body)
        as [err|a] eqn:Hbind; [by left |].
      apply ShouldBindJSON_valid in Hbind as [Hdec Ha].
      destruct (execOnId idOfText env st id (fun k t => <[k := rowOf kept a]> t))
        as [err|[table rows]] eqn:Hexec; [by left |].
      apply execOnId_cases in Hexec as (_ & m & Hid & Hcases).
      assert (table !! n = Some row) as Hin.
      { destruct (k_rows env); [done |]. by destruct (rows =? 0). }
      destruct Hcases as [(old & Hold & -> & ->) | (Hnone & -> & ->)]; [| by left].
      apply lookup_insert_Some in Hin as [[_ <-] | [_ Hin]]; [| by left].
      right. by exists a.
  - intros [Hrow | [Hrow | Hrow]].
    + unfold deleteAlbum in Hrow.
      destruct (execOnId idOfText env st id (fun k t => delete k t))
        as [err|[table rows]] eqn:Hexec; [done |].
      apply execOnId_cases in Hexec as (_ & m & Hid & Hcases).
      assert (table !! n = Some row) as Hin.
      { destruct (k_rows env); [done |]. by destruct (rows =? 0). }
      destruct Hcases as [(old & Hold & -> & ->) | (Hnone & -> & ->)]; [| done].
      by apply lookup_delete_Some in Hin as [_ Hin].
    + unfold getAlbum in Hrow.
      destruct (selectAlbum idOfText env st id) as [err|[m found]]; [| done].
      by destruct (decide (err = sqlErrNoRows)).
    + unfold getAllAlbums in Hrow. destruct (lf_query lf); [done |].
      by destruct (scanAlbums _ _ _ _).
Qed.

(** X23.  [getAllAlbums] never changes the store.  Whenever it answers 200
    its list is the table: one entry per row, each entry a row with its id
    in decimal and no initial quantity; and [getAlbum] on the id of an
    entry sends that entry.  When no call fails it answers 200. *)
Theorem X23_album_listing_is_the_table :
  forall (Price : Type) (idOfText : string -> error + Z)
         (lf : ListFaults) (st : Store Price),
    fst (getAllAlbums lf st) = st
    /\ (forall items,
          snd (getAllAlbums lf st) = mkReply StatusOK (AlbumsReply items) ->
          length items = size (albums st)
          /\ (forall a,
                a ∈ items <->
                exists n row, albums st !! n = Some row /\ a = albumOfRow n row)
          /\ (forall a envG,
                a ∈ items ->
                k_query envG = None ->
                (forall n, idOfText (Itoa n) = inr n) ->
                getAlbum idOfText envG st (a_ID a) = (st, mkReply StatusOK (AlbumReply a))))
    /\ (exists items,
          getAllAlbums calmList st = (st, mkReply StatusOK (AlbumsReply items))).
Proof.
  intros Price idOfText lf st.
  assert (forall a : Album Price,
            a ∈ (fun nr => albumOfRow (fst nr) (snd nr)) <$> map_to_list (albums st) <->
            exists n row, albums st !! n = Some row /\ a = albumOfRow n row) as Hin.
  { intros a. rewrite list_elem_of_fmap. split.
    - intros ([n row] & -> & Hnr). apply elem_of_map_to_list in Hnr. by exists n, row.
    - intros (n & row & Hrow & ->). exists (n, row). split; [done |].
      by apply elem_of_map_to_list. }
  split_and!.
  - unfold getAllAlbums. destruct (lf_query lf); [done |].
    by destruct (scanAlbums _ _ _ _).
  - intros items. unfold getAllAlbums. destruct (lf_query lf); [done |].
    destruct (scanAlbums lf 0 (map_to_list (albums st)) []) as [e|e|l] eqn:Hscan; try done.
    cbn. intros [= <-]. apply scanAlbums_listed in Hscan. cbn in Hscan. subst l.
    split_and!.
    + by rewrite length_fmap, length_map_to_list.
    + apply Hin.
    + intros a envG Ha Hquery Hid. apply Hin in Ha as (n & row & Hrow & ->).
      cbn [albumOfRow a_ID]. by apply getAlbum_found.
  - destruct (scanAlbums_calm Price 0 (map_to_list (albums st)) []) as [items Hscan].
    exists items. unfold getAllAlbums. cbn. by rewrite Hscan.
Qed.

(** X24.  A request whose initial quantity is negative is refused by the
    binding: [createAlbum] and [updateAlbum] answer 400, store nothing and
    publish nothing, so no album-created event with a negative quantity
    comes from [createAlbum]. *)
Theorem X24_negative_initial_quantity_is_refused :
  forall (Price : Type) (priceAboveZero : Price -> bool)
         (decodeAlbum : string -> error + Album Price)
         (validationError : Album Price -> error)
         (marshalEvent : AlbumCreatedEvent -> error + string)
         (idOfText : string -> error + Z)
         (kept : AlbumRow Price -> AlbumRow Price)
         (env : Calls) (st : Store Price) (id body : string) (a : Album Price) (q : Z),
    decodeAlbum body = inr a ->
    a_InitialQuantity a = Some q ->
    q < 0 ->
    createAlbum priceAboveZero decodeAlbum validationError marshalEvent kept env st body
    = (st, mkReply StatusBadRequest
             (ErrorReply ("Invalid request body: " ++ Error (validationError a))))
    /\ updateAlbum priceAboveZero decodeAlbum validationError idOfText kept env st id body
       = (st, mkReply StatusBadRequest
                (ErrorReply ("Invalid request body: " ++ Error (validationError a)))).
Proof.
  intros Price priceAboveZero decodeAlbum validationError marshalEvent idOfText kept
         env st id body a q Hdec Hq Hneg.
  assert (ShouldBindJSON priceAboveZero decodeAlbum validationError body
          = inl (validationError a)) as Hbind.
  { unfold ShouldBindJSON. rewrite Hdec.
    destruct (validAlbum priceAboveZero a) eqn:Hvalid; [| done].
    pose proof (validAlbum_quantity _ _ _ _ Hvalid Hq). lia. }
  unfold createAlbum, updateAlbum. by rewrite Hbind.
Qed.

Lemma X24_negative_initial_quantity_is_refused_witness :
  createAlbum SampleAlbums.priceAboveZero SampleAlbums.decodeAlbum
    SampleAlbums.validationError SampleAlbums.marshalEvent SampleAlbums.kept
    SampleAlbums.request SampleAlbums.empty "Red by Bo, -1 in stock"
  = (SampleAlbums.empty,
     mkReply StatusBadRequest
       (ErrorReply ("Invalid request body: " ++
                    Error (SampleAlbums.validationError
                             (mkAlbum EmptyString "Red" "Bo" 999 2024 "Rock" (Some (-1)))))))
  /\ updateAlbum SampleAlbums.priceAboveZero SampleAlbums.decodeAlbum
       SampleAlbums.validationError SampleAlbums.idOfText SampleAlbums.kept
       SampleAlbums.request SampleAlbums.empty "7" "Red by Bo, -1 in stock"
     = (SampleAlbums.empty,
        mkReply StatusBadRequest
          (ErrorReply ("Invalid request body: " ++
                       Error (SampleAlbums.validationError
                                (mkAlbum EmptyString "Red" "Bo" 999 2024 "Rock" (Some (-1))))))).
Proof.
  exact (X24_negative_initial_quantity_is_refused Z SampleAlbums.priceAboveZero
           SampleAlbums.decodeAlbum SampleAlbums.validationError SampleAlbums.marshalEvent
           SampleAlbums.idOfText SampleAlbums.kept SampleAlbums.request SampleAlbums.empty "7"
           "Red by Bo, -1 in stock"
           (mkAlbum EmptyString "Red" "Bo" 999 2024 "Rock" (Some (-1))) (-1)
           eq_refl eq_refl ltac:(lia)).
Defined.

End AlbumRuns.
